(** * ai-paper-search: the document indexing and retrieval pipeline

    A shallow embedding of [app/services/file_processing.py] (the chunker of
    [PDFProcessor]) and [app/services/rag_pipeline.py] ([RAGPipeline]), with
    the properties of the specification stated over it. *)

From Stdlib Require Import ZArith Ascii String.
From stdpp Require Import gmap strings list fin_maps pretty.

Local Open Scope Z_scope.

(** ** Python values *)

(** A Python [str] is a sequence of Unicode code points. *)
Abbreviation str := (list N).

(** A string literal of the source, as a [str]. *)
Definition lit (s : string) : str :=
  List.map N_of_ascii (list_ascii_of_string s).

(** The exceptions the modelled code can raise. *)
Inductive exn : Type :=
| ValueError           (* range() arg 3 must not be zero *)
| ZeroDivisionError    (* integer division or modulo by zero *)
| IndexError           (* list index out of range *)
| TypeError            (* 'NoneType' object is not callable *)
| FileNotFoundError    (* open() of a missing file for reading *)
| UnpicklingError.     (* pickle.load on bytes that are no pickle *)

(** The outcome of a call: a value, or a raised exception. *)
Inductive result (A : Type) : Type :=
| Ok (a : A)
| Raised (e : exn).
Arguments Ok {A} a.
Arguments Raised {A} e.

#[export] Instance result_ret : MRet result := fun A a => Ok a.
#[export] Instance result_bind : MBind result := fun A B f r =>
  match r with
  | Ok a => f a
  | Raised e => Raised e
  end.

(** [len(l)] *)
Definition len {A} (l : list A) : Z := Z.of_nat (length l).

(** [str.isspace] on one code point (CPython's [_PyUnicode_IsWhitespace]). *)
Definition isspace (c : N) : bool :=
  ((9 <=? c) && (c <=? 13) || (28 <=? c) && (c <=? 32) || (c =? 133) ||
   (c =? 160) || (c =? 5760) || (8192 <=? c) && (c <=? 8202) ||
   (c =? 8232) || (c =? 8233) || (c =? 8239) || (c =? 8287) ||
   (c =? 12288))%N.

(** [text.split()] with no separator: the maximal runs of non-whitespace
    characters, in order; [cur] is the run being read. *)
Fixpoint split_from (cur : str) (s : str) : list str :=
  match s with
  | [] => if decide (cur = []) then [] else [cur]
  | c :: s' =>
      if isspace c
      then (if decide (cur = []) then split_from [] s'
            else cur :: split_from [] s')
      else split_from (cur ++ [c]) s'
  end.

Definition split (text : str) : list str := split_from [] text.

(** [sep.join(ws)] *)
Fixpoint join (sep : str) (ws : list str) : str :=
  match ws with
  | [] => []
  | [w] => w
  | w :: ws' => w ++ sep ++ join sep ws'
  end.

(** The index a slice bound [k] denotes in a sequence of length [n]: negative
    bounds count from the end, and every bound is clamped to [0..n]. *)
Definition slice_index (n k : Z) : Z :=
  if k <? 0 then Z.max 0 (n + k) else Z.min k n.

(** [l[i:j]] *)
Definition slice {A} (l : list A) (i j : Z) : list A :=
  let lo := slice_index (len l) i in
  let hi := slice_index (len l) j in
  take (Z.to_nat (hi - lo)) (drop (Z.to_nat lo) l).

(** [len(range(start, stop, step))] for a non-zero step. *)
Definition range_length (start stop step : Z) : Z :=
  if 0 <? step
  then (if start <? stop then (stop - start - 1) / step + 1 else 0)
  else (if stop <? start then (start - stop - 1) / (- step) + 1 else 0).

(** [range(start, stop, step)], which raises on a zero step. *)
Definition range (start stop step : Z) : result (list Z) :=
  if step =? 0 then Raised ValueError
  else Ok (List.map (fun k => start + Z.of_nat k * step)
                    (seq 0 (Z.to_nat (range_length start stop step)))).

(** [a // b] *)
Definition floordiv (a b : Z) : result Z :=
  if b =? 0 then Raised ZeroDivisionError else Ok (a / b).

(** [for x in xs: s = body(s, x)], stopping at the first exception. *)
Fixpoint for_each {A S} (xs : list A) (body : S -> A -> result S) (s : S)
  : result S :=
  match xs with
  | [] => Ok s
  | x :: xs' => s' ← body s x; for_each xs' body s'
  end.

(** ** [PDFProcessor]: the chunker *)

(** The dictionary [chunk_text] appends for each chunk. *)
Record Chunk : Type := mkChunk {
  text : str;
  chunk_index : Z;
  estimated_page : Z;
  word_count : Z
}.

(** [settings.chunk_size] and [settings.chunk_overlap], as [__init__] copies
    them. *)
Record PDFProcessor : Type := mkPDFProcessor {
  chunk_size : Z;
  chunk_overlap : Z
}.

(** The body of the loop of [chunk_text] at start offset [i]. *)
Definition chunk_text_body (self : PDFProcessor) (words : list str)
    (chunks : list Chunk) (i : Z) : result (list Chunk) :=
  let chunk_words := slice words i (i + chunk_size self) in
  let chunk_text := join (lit " ") chunk_words in
  q ← floordiv i (chunk_size self);
  let estimated_page := q + 1 in
  Ok (chunks ++ [ {| text := chunk_text;
                     chunk_index := len chunks;
                     estimated_page := estimated_page;
                     word_count := len chunk_words |} ]).

(** [PDFProcessor.chunk_text] *)
Definition chunk_text (self : PDFProcessor) (text : str)
  : result (list Chunk) :=
  let chunks := [] in
  let words := split text in
  r ← range 0 (len words) (chunk_size self - chunk_overlap self);
  for_each r (chunk_text_body self words) chunks.


(** ** The collaborators of [RAGPipeline] *)

(** A Python [bytes] value. *)
Abbreviation bytes := (list Byte.byte).

(** The embedding service ([UpstageEmbeddings]): the vector of a text is a
    function of the text, for passages ([embed_documents], text by text) and
    for queries. The service answers every call: the failure of a remote
    call is not modelled. *)
Class Embeddings : Type := {
  vector : Type;
  embed : str -> vector;
  embed_query : str -> vector
}.

(** The generation service ([ChatUpstage]): the answer to a prompt. It
    answers every call as well. *)
Class LLM : Type := {
  invoke : str -> str
}.

(** A langchain [Document]: its text and its metadata dictionary. *)
Record Document : Type := mkDocument {
  page_content : str;
  metadata : gmap string Z
}.

Section Store.
Context {emb : Embeddings}.

(** One entry of a vector store: row [i] of the faiss index, and the document
    the docstore holds for that row. *)
Record Entry : Type := mkEntry {
  embedding : vector;
  document : Document
}.

(** A langchain [FAISS] vector store. Rows are appended to the index and to
    the docstore together, so [docstore._dict.values()] lists the documents
    in row order. *)
Record FAISS : Type := mkFAISS {
  entries : list Entry
}.

(** [vectorstore.docstore._dict.values()] *)
Definition docstore_values (vectorstore : FAISS) : list Document :=
  List.map document (entries vectorstore).

End Store.

(** The distance of the faiss index, an ordered score. *)
Class Metric {emb : Embeddings} : Type := {
  score : Type;
  distance : vector -> vector -> score;
  score_leb : score -> score -> bool
}.

(** [pickle.dumps] and [pickle.loads] on vector stores. *)
Class Pickle {emb : Embeddings} : Type := {
  pickle_dumps : FAISS -> bytes;
  pickle_loads : bytes -> result FAISS
}.

(** [settings.faiss_index_path] *)
Class Settings : Type := {
  faiss_index_path : string
}.

(** A call to a remote service. *)
Inductive call : Type :=
| CallEmbedDocuments (texts : list str)
| CallEmbedQuery (text : str)
| CallLLM (prompt : str).

Section Programs.
Context {emb : Embeddings} {met : Metric} {pkl : Pickle} {llm : LLM} {cfg : Settings}.

(** What the pipeline acts on: the files under the index directory, the calls
    made to the remote services so far, and [self.qa_chain] (the vector store
    its retriever reads). *)
Record world : Type := mkWorld {
  fs : gmap string bytes;
  calls : list call;
  qa_chain : option FAISS
}.

(** The atomic actions of the pipeline, by the type of what they return. *)
Inductive instr : Type -> Type :=
| EmbedDocuments (texts : list str) : instr (list vector)
| EmbedQuery (text : str) : instr vector
| Invoke (prompt : str) : instr str
| PathExists (path : string) : instr bool
| ReadFile (path : string) : instr bytes
| OpenWb (path : string) : instr unit
| WriteByte (path : string) (b : Byte.byte) : instr unit
| SetQaChain (vectorstore : FAISS) : instr unit
| GetQaChain : instr (option FAISS).

(** A computation of the pipeline: a tree of atomic actions. *)
Inductive prog (A : Type) : Type :=
| Return (a : A)
| Raise (e : exn)
| Do {X : Type} (i : instr X) (k : X -> prog A).
Arguments Return {A} a.
Arguments Raise {A} e.
Arguments Do {A X} i k.

Fixpoint prog_bind {A B} (f : A -> prog B) (p : prog A) : prog B :=
  match p with
  | Return a => f a
  | Raise e => Raise e
  | Do i k => Do i (fun x => prog_bind f (k x))
  end.

#[export] Instance prog_mret : MRet prog := fun A a => Return a.
#[export] Instance prog_mbind : MBind prog := fun A B f p => prog_bind f p.

(** One atomic action on its own. *)
Definition act {X} (i : instr X) : prog X := Do i Return.

Definition log (c : call) (w : world) : world :=
  {| fs := fs w; calls := calls w ++ [c]; qa_chain := qa_chain w |}.

Definition set_fs (f : gmap string bytes) (w : world) : world :=
  {| fs := f; calls := calls w; qa_chain := qa_chain w |}.

(** The effect of one atomic action. Opening a file for writing creates or
    truncates it; a write appends to it. *)
Definition perform {X} (i : instr X) (w : world) : result X * world :=
  match i with
  | EmbedDocuments texts =>
      (Ok (List.map embed texts), log (CallEmbedDocuments texts) w)
  | EmbedQuery text => (Ok (embed_query text), log (CallEmbedQuery text) w)
  | Invoke prompt => (Ok (invoke prompt), log (CallLLM prompt) w)
  | PathExists path => (Ok (bool_decide (is_Some (fs w !! path))), w)
  | ReadFile path =>
      match fs w !! path with
      | Some data => (Ok data, w)
      | None => (Raised FileNotFoundError, w)
      end
  | OpenWb path => (Ok tt, set_fs (<[path := []]> (fs w)) w)
  | WriteByte path b =>
      (Ok tt, set_fs (<[path := default [] (fs w !! path) ++ [b]]> (fs w)) w)
  | SetQaChain vectorstore =>
      (Ok tt, {| fs := fs w; calls := calls w; qa_chain := Some vectorstore |})
  | GetQaChain => (Ok (qa_chain w), w)
  end.

(** Running a computation to its end. *)
Fixpoint exec {A} (p : prog A) (w : world) : result A * world :=
  match p with
  | Return a => (Ok a, w)
  | Raise e => (Raised e, w)
  | Do i k =>
      match perform i w with
      | (Ok x, w') => exec (k x) w'
      | (Raised e, w') => (Raised e, w')
      end
  end.

(** The world a crash leaves behind when the process dies after [n] atomic
    actions of a computation (or the computation's last world, when it ends
    before that). *)
Fixpoint crash_after {A} (n : nat) (p : prog A) (w : world) : world :=
  match n, p with
  | S n', Do i k =>
      match perform i w with
      | (Ok x, w') => crash_after n' (k x) w'
      | (Raised e, w') => w'
      end
  | _, _ => w
  end.

(** The number of atomic actions a computation performs from [w]. *)
Fixpoint steps {A} (p : prog A) (w : world) : nat :=
  match p with
  | Do i k =>
      match perform i w with
      | (Ok x, w') => S (steps (k x) w')
      | (Raised e, w') => 1
      end
  | _ => 0
  end.

End Programs.

Arguments Return {_ A} a.
Arguments Raise {_ A} e.
Arguments Do {_ A X} i k.

(** ** [RAGPipeline] *)

Section Pipeline.
Context {emb : Embeddings} {met : Metric} {pkl : Pickle} {llm : LLM} {cfg : Settings}.

(** *** The library calls the pipeline makes *)

(** [FAISS.from_texts(texts, embedding, metadatas)]: one call to the
    embedding service for all the texts, and a store with one row per text.
    The index is sized from the first vector, which fails on no text at
    all. *)
Definition from_texts (texts : list str) (metadatas : list (gmap string Z))
  : prog FAISS :=
  embeddings ← act (EmbedDocuments texts);
  match embeddings with
  | [] => Raise IndexError
  | _ =>
      Return {| entries :=
                  zip_with mkEntry embeddings
                           (zip_with mkDocument texts metadatas) |}
  end.

(** [vectorstore.add_documents(documents)]: embeds the texts of the given
    documents and appends one row per document to the store, which is
    updated in place; the rows it already has are left as they are. *)
Definition add_documents (vectorstore : FAISS) (documents : list Document)
  : prog FAISS :=
  let texts := List.map page_content documents in
  embeddings ← act (EmbedDocuments texts);
  Return {| entries :=
              entries vectorstore ++ zip_with mkEntry embeddings documents |}.

(** Stable insertion into a list sorted by [leb]. *)
Fixpoint insert_sorted {A} (leb : A -> A -> bool) (x : A) (l : list A)
  : list A :=
  match l with
  | [] => [x]
  | y :: l' => if leb x y then x :: y :: l' else y :: insert_sorted leb x l'
  end.

Definition sort_by {A} (leb : A -> A -> bool) (l : list A) : list A :=
  foldr (insert_sorted leb) [] l.

(** Modelled from the spec: the search of the vector index, which is the
    faiss library's. It returns up to [k] entries, nearest to the query
    vector first, ties in insertion order. *)
Definition search (index : list Entry) (query_vector : vector) (k : nat)
  : list Entry :=
  take k (sort_by (fun a b => score_leb (distance query_vector (embedding a))
                                        (distance query_vector (embedding b)))
                  index).

(** [vectorstore.similarity_search(query, k)]: what the retriever of
    [vectorstore.as_retriever(search_kwargs={"k": k})] returns. *)
Definition similarity_search (vectorstore : FAISS) (query : str) (k : nat)
  : prog (list Document) :=
  query_vector ← act (EmbedQuery query);
  Return (List.map document (search (entries vectorstore) query_vector k)).

(** [PROMPT.format(context=context, question=question)]: the lines of the
    template of [setup_qa_chain], with the two variables filled in. *)
Definition PROMPT (context question : str) : str :=
  join [10%N]
    [ lit "You are an AI assistant helping researchers analyze academic papers. ";
      lit "        Use the following pieces of context to answer the question. If you don't know the answer based on the context, just say that you don't know.";
      lit "";
      lit "        Context:";
      lit "        " ++ context;
      lit "";
      lit "        Question: " ++ question;
      lit "";
      lit "        Instructions:";
      lit "        1. Provide a detailed answer in the same language as the question";
      lit "        2. If the question is in Korean, answer in Korean. If in English, answer in English";
      lit "        3. Always cite sources using the format: [Page X] or [Source X] where X is the page number";
      lit "        4. Highlight key findings with **bold text**";
      lit "        5. Use bullet points for multiple findings";
      lit "        6. Include specific quotes when relevant, marked with quotation marks";
      lit "";
      lit "        Answer:" ].

(** Calling a [RetrievalQA] chain of type "stuff" built with
    [return_source_documents=True] over a retriever of [vectorstore] with
    [k = 5]: retrieve, put the retrieved texts in the prompt, generate. *)
Definition RetrievalQA (vectorstore : FAISS) (question : str)
  : prog (str * list Document) :=
  source_documents ← similarity_search vectorstore question 5;
  let context :=
    join [10%N; 10%N] (List.map page_content source_documents) in
  result ← act (Invoke (PROMPT context question));
  Return (result, source_documents).

(** *** The methods of [RAGPipeline] *)

(** [RAGPipeline.create_embeddings] *)
Definition create_embeddings (chunks : list Chunk) (file_id : Z)
  : prog FAISS :=
  let texts := List.map text chunks in
  let metadatas :=
    List.map (fun chunk : Chunk =>
                <["file_id" := file_id]>
                (<["chunk_index" := chunk_index chunk]>
                (<["estimated_page" := estimated_page chunk]>
                (<["word_count" := word_count chunk]> ∅))))
             chunks in
  from_texts texts metadatas.

(** [os.path.join(a, b)] for a relative [b]. *)
Definition os_path_join (a b : string) : string :=
  if decide (a = "") then b
  else if decide (last (list_ascii_of_string a) = Some "/"%char) then a +:+ b
  else a +:+ "/" +:+ b.

(** The file of a project's index. *)
Definition index_path (project_id : Z) : string :=
  os_path_join faiss_index_path ("project_" +:+ pretty project_id +:+ ".pkl").

(** [RAGPipeline.load_vectorstore] *)
Definition load_vectorstore (project_id : Z) : prog (option FAISS) :=
  let index_path := index_path project_id in
  present ← act (PathExists index_path);
  if (present : bool) then
    data ← act (ReadFile index_path);
    match pickle_loads data with
    | Ok vectorstore => Return (Some vectorstore)
    | Raised e => Raise e
    end
  else Return None.

(** What [pickle.dump] writes through the file object, as the writes that
    reach the file one after the other. *)
Fixpoint write (path : string) (data : bytes) : prog unit :=
  match data with
  | [] => Return tt
  | b :: data' => _ ← act (WriteByte path b); write path data'
  end.

(** [RAGPipeline.save_vectorstore] *)
Definition save_vectorstore (vectorstore : FAISS) (project_id : Z)
  : prog unit :=
  let index_path := index_path project_id in
  _ ← act (OpenWb index_path);
  write index_path (pickle_dumps vectorstore).

(** [RAGPipeline.merge_vectorstores] *)
Definition merge_vectorstores (existing_vectorstore : option FAISS)
    (new_vectorstore : FAISS) : prog FAISS :=
  match existing_vectorstore with
  | None => Return new_vectorstore
  | Some existing_vectorstore =>
      add_documents existing_vectorstore (docstore_values new_vectorstore)
  end.

(** [RAGPipeline.setup_qa_chain]: the chain it stores in [self.qa_chain] is
    determined by the vector store its retriever reads; what calling the
    chain does is [RetrievalQA]. *)
Definition setup_qa_chain (vectorstore : FAISS) : prog unit :=
  act (SetQaChain vectorstore).

(** [RAGPipeline.add_documents_to_project] *)
Definition add_documents_to_project (chunks : list Chunk)
    (file_id project_id : Z) : prog FAISS :=
  new_vectorstore ← create_embeddings chunks file_id;
  existing_vectorstore ← load_vectorstore project_id;
  merged_vectorstore ←
    merge_vectorstores existing_vectorstore new_vectorstore;
  _ ← save_vectorstore merged_vectorstore project_id;
  _ ← setup_qa_chain merged_vectorstore;
  Return merged_vectorstore.

(** One element of ["sources"] in the answer of [query]; [page] is the
    string ["Unknown"] when the metadata has no ["estimated_page"]. *)
Record Source : Type := mkSource {
  content : str;
  source_metadata : gmap string Z;
  page : Z + str
}.

(** The dictionary [query] returns. *)
Record Answer : Type := mkAnswer {
  answer : str;
  sources : list Source
}.

Definition format_source (doc : Document) : Source :=
  {| content := page_content doc;
     source_metadata := metadata doc;
     page := match metadata doc !! "estimated_page" with
             | Some p => inl p
             | None => inr (lit "Unknown")
             end |}.

Definition no_documents_answer : str :=
  lit "No documents found in this project. Please upload some PDF files first.".

(** [RAGPipeline.query] *)
Definition query (question : str) (project_id : Z) : prog Answer :=
  vectorstore ← load_vectorstore project_id;
  match vectorstore with
  | None => Return {| answer := no_documents_answer; sources := [] |}
  | Some vectorstore =>
      _ ← setup_qa_chain vectorstore;
      chain ← act GetQaChain;
      match chain with
      | None => Raise TypeError
      | Some retriever_store =>
          '(result, source_documents) ← RetrievalQA retriever_store question;
          let sources := List.map format_source source_documents in
          Return {| answer := result; sources := sources |}
      end
  end.

(** The dictionary [get_project_stats] returns. *)
Record Stats : Type := mkStats {
  total_documents : Z;
  total_chunks : Z;
  file_ids : list Z
}.

(** The body of the loop of [get_project_stats] over the documents. *)
Definition stats_body (acc : gset Z * Z) (doc : Document) : gset Z * Z :=
  let '(file_ids, total_chunks) := acc in
  let file_ids :=
    match metadata doc !! "file_id" with
    | Some file_id => file_ids ∪ {[ file_id ]}
    | None => file_ids
    end in
  (file_ids, total_chunks + 1).

(** [RAGPipeline.get_project_stats] *)
Definition get_project_stats (project_id : Z) : prog Stats :=
  vectorstore ← load_vectorstore project_id;
  match vectorstore with
  | None =>
      Return {| total_documents := 0; total_chunks := 0; file_ids := [] |}
  | Some vectorstore =>
      let '(file_ids, total_chunks) :=
        foldl stats_body (∅, 0) (docstore_values vectorstore) in
      Return {| total_documents := Z.of_nat (size file_ids);
                total_chunks := total_chunks;
                file_ids := elements file_ids |}
  end.

End Pipeline.

(** ** What the specification says of the chunker *)

(** The [k]-th sliding window over [words]: at most [size] words from start
    offset [k * step]. *)
Definition window (size step : Z) (words : list str) (k : nat) : list str :=
  take (Z.to_nat size) (drop (Z.to_nat (Z.of_nat k * step)) words).

(** The chunk of the [k]-th window, as the specification describes it. *)
Definition window_chunk (size step : Z) (words : list str) (k : nat) : Chunk :=
  let start_offset := Z.of_nat k * step in
  {| text := join (lit " ") (window size step words k);
     chunk_index := Z.of_nat k;
     estimated_page := start_offset / size + 1;
     word_count := len (window size step words k) |}.

(** The number of windows that start inside [n] words: the least [c] with
    [c * step >= n]. *)
Definition window_count (n step : Z) : nat := Z.to_nat ((n + step - 1) / step).

(** The chunk sequence of the specification: one chunk per window of size
    [chunk_size_words], advanced by [chunk_size_words - overlap_words]. *)
Definition sliding_window_chunks (chunk_size_words overlap_words : Z)
    (text : str) : list Chunk :=
  let words := split text in
  let step := chunk_size_words - overlap_words in
  List.map (window_chunk chunk_size_words step words)
           (seq 0 (window_count (len words) step)).

(** The word positions of the document that a chunk holds run from its start
    offset (its index times the step) to its end offset. *)
Definition start_offset (self : PDFProcessor) (c : Chunk) : Z :=
  chunk_index c * (chunk_size self - chunk_overlap self).

Definition end_offset (self : PDFProcessor) (c : Chunk) : Z :=
  start_offset self c + word_count c.

(** The number of word positions a chunk shares with the next one. *)
Definition overlap (self : PDFProcessor) (c1 c2 : Chunk) : Z :=
  Z.max 0 (end_offset self c1 - start_offset self c2).

(** Every pair of consecutive chunks, the final chunk apart, overlaps by the
    configured number of words. *)
Definition overlap_as_configured (self : PDFProcessor) (chunks : list Chunk)
  : Prop :=
  ∀ (k : nat) c1 c2,
    chunks !! k = Some c1 → chunks !! S k = Some c2 →
    (S (S k) < length chunks)%nat →
    overlap self c1 c2 = chunk_overlap self.

(** A word as [split] produces them: not empty, and free of whitespace. *)
Definition is_word (w : str) : Prop :=
  w ≠ [] ∧ Forall (λ c, isspace c = false) w.


(** ** What the specification says of the pipeline *)

Section Specification.
Context {emb : Embeddings} {met : Metric} {pkl : Pickle} {llm : LLM} {cfg : Settings}.

(** The distinct file ids among the entries of an index. *)
Definition file_id_set (index : FAISS) : gset Z :=
  list_to_set (omap (λ doc, metadata doc !! "file_id") (docstore_values index)).

(** An index whose every entry holds the embedding of its own text, as every
    fragment built by [create_embeddings] does. *)
Definition embedded (index : FAISS) : Prop :=
  Forall (λ e, embedding e = embed (page_content (document e))) (entries index).

(** The metadata [create_embeddings] gives the entry of a chunk. *)
Definition chunk_metadata (file_id : Z) (chunk : Chunk) : gmap string Z :=
  <["file_id" := file_id]>
  (<["chunk_index" := chunk_index chunk]>
  (<["estimated_page" := estimated_page chunk]>
  (<["word_count" := word_count chunk]> ∅))).

(** The fragment the specification's [build] makes of the chunks of a file:
    one entry per chunk, with the embedding and the text of the chunk and
    the metadata of the chunk. *)
Definition build (chunks : list Chunk) (file_id : Z) : FAISS :=
  {| entries :=
       List.map (λ chunk : Chunk,
                   {| embedding := embed (text chunk);
                      document := {| page_content := text chunk;
                                     metadata := chunk_metadata file_id chunk |} |})
                chunks |}.

(** The documents the retriever returns for a question. *)
Definition retrieved (index : FAISS) (question : str) : list Document :=
  List.map document (search (entries index) (embed_query question) 5).

(** The actions that write to a file. *)
Definition writes {X} (i : instr X) : bool :=
  match i with
  | OpenWb _ | WriteByte _ _ => true
  | _ => false
  end.

(** A computation none of whose actions writes to a file. *)
Fixpoint read_only {A} (p : prog A) : Prop :=
  match p with
  | Do i k => writes i = false ∧ ∀ x, read_only (k x)
  | _ => True
  end.

(** The steps of [add_documents_to_project] that come before the save. *)
Definition embed_load_merge (chunks : list Chunk) (file_id project_id : Z)
  : prog FAISS :=
  new_vectorstore ← create_embeddings chunks file_id;
  existing_vectorstore ← load_vectorstore project_id;
  merge_vectorstores existing_vectorstore new_vectorstore.

(** [add_documents_to_project] is [embed_load_merge] followed by the save. *)
Definition save_and_setup (merged_vectorstore : FAISS) (project_id : Z)
  : prog FAISS :=
  _ ← save_vectorstore merged_vectorstore project_id;
  _ ← setup_qa_chain merged_vectorstore;
  Return merged_vectorstore.

(** The persisted index of a project is kept until the new one is saved, in
    a run of [add_documents_to_project] from [w]: whenever the process dies,
    the project's file holds either what it held before or the whole of the
    new index. *)
Definition prior_index_kept_until_saved (chunks : list Chunk)
    (file_id project_id : Z) (w : world) : Prop :=
  ∀ n : nat,
    let crashed :=
      crash_after n (add_documents_to_project chunks file_id project_id) w in
    fs crashed !! index_path project_id = fs w !! index_path project_id ∨
    ∃ merged w',
      exec (add_documents_to_project chunks file_id project_id) w
        = (Ok merged, w') ∧
      fs crashed !! index_path project_id = Some (pickle_dumps merged).

End Specification.

(** ** An instance of the collaborators, to run the pipeline on *)

Definition example_embeddings : Embeddings :=
  {| vector := Z; embed := len; embed_query := len |}.

Definition example_metric : @Metric example_embeddings :=
  @Build_Metric example_embeddings Z (λ a b : Z, Z.abs (a - b)) Z.leb.

Definition example_llm : LLM := {| invoke := λ prompt, lit "I do not know." |}.

Definition other_llm : LLM := {| invoke := λ prompt, prompt |}.

Definition example_settings : Settings := {| faiss_index_path := "faiss_index" |}.

#[local] Instance Document_eq_dec : EqDecision Document.
Proof. solve_decision. Defined.

#[local] Program Instance Document_countable : Countable Document :=
  inj_countable' (λ d, (page_content d, metadata d))
                 (λ p, mkDocument p.1 p.2) _.
Next Obligation. by intros []. Qed.

#[local] Instance Entry_eq_dec : EqDecision (@Entry example_embeddings).
Proof. solve_decision. Defined.

#[local] Program Instance Entry_countable : Countable (@Entry example_embeddings) :=
  inj_countable' (λ e : @Entry example_embeddings, (embedding e : Z, document e))
                 (λ p, @mkEntry example_embeddings p.1 p.2) _.
Next Obligation. by intros []. Qed.

(** A serialization of the entries of an index: a header byte, then the
    binary digits of the code of the entries. *)
Fixpoint digits (p : positive) : bytes :=
  match p with
  | xH => []
  | xO p => Byte.x00 :: digits p
  | xI p => Byte.x01 :: digits p
  end.

Fixpoint of_digits (data : bytes) : option positive :=
  match data with
  | [] => Some xH
  | Byte.x00 :: data => xO <$> of_digits data
  | Byte.x01 :: data => xI <$> of_digits data
  | _ => None
  end.

Definition example_pickle : @Pickle example_embeddings :=
  @Build_Pickle example_embeddings
    (λ index, Byte.x80 :: digits (encode (entries index)))
    (λ data,
       match data with
       | Byte.x80 :: data =>
           match of_digits data ≫= decode with
           | Some index => Ok (@mkFAISS example_embeddings index)
           | None => Raised UnpicklingError
           end
       | _ => Raised UnpicklingError
       end).

Definition example_chunks : list Chunk :=
  [ mkChunk (lit "a b c") 0 1 3; mkChunk (lit "c d e") 1 1 3;
    mkChunk (lit "e") 2 2 1 ].

(** The index of a project that holds one chunk of file 3. *)
Definition example_index : @FAISS example_embeddings :=
  @mkFAISS example_embeddings
    [ @mkEntry example_embeddings 3
        {| page_content := lit "x y";
           metadata := <["file_id" := 3]>
                       (<["chunk_index" := 0]>
                       (<["estimated_page" := 1]>
                       (<["word_count" := 2]> ∅))) |} ].

(** A fragment that holds one chunk of file 4. *)
Definition other_index : @FAISS example_embeddings :=
  @mkFAISS example_embeddings
    [ @mkEntry example_embeddings 5
        {| page_content := lit "p q r";
           metadata := <["file_id" := 4]>
                       (<["chunk_index" := 0]>
                       (<["estimated_page" := 1]>
                       (<["word_count" := 3]> ∅))) |} ].

(** A world where project 1 has [example_index] on file. *)
Definition example_world : @world example_embeddings :=
  @mkWorld example_embeddings
    {[ @index_path example_settings 1 :=
         @pickle_dumps _ example_pickle example_index ]}
    [] None.

(** An index of seven chunks of file 6, with texts of different lengths. *)
Definition library_index : @FAISS example_embeddings :=
  @build example_embeddings
    [ mkChunk (lit "alpha") 0 1 1; mkChunk (lit "beta gamma") 1 1 2;
      mkChunk (lit "delta epsilon zeta") 2 1 3; mkChunk (lit "eta") 3 2 1;
      mkChunk (lit "theta iota kappa") 4 2 3; mkChunk (lit "lambda mu nu") 5 2 3;
      mkChunk (lit "xi omicron pi rho sigma") 6 3 5 ] 6.

(** A world where project 3 has [library_index] on file. *)
Definition library_world : @world example_embeddings :=
  @mkWorld example_embeddings
    {[ @index_path example_settings 3 :=
         @pickle_dumps _ example_pickle library_index ]}
    [] None.

(** ** The code around the chunker and the pipeline *)

(** [s.lstrip()] *)
Fixpoint lstrip (s : str) : str :=
  match s with
  | c :: s' => if isspace c then lstrip s' else s
  | [] => []
  end.

(** [s.strip()] *)
Definition strip (s : str) : str := rev (lstrip (rev (lstrip s))).

(** The truth value of a string: it is not empty. *)
Definition truthy (s : str) : bool := bool_decide (s ≠ []).

(** What the code around the pipeline raises: the exceptions of the
    interpreter and of the libraries, fastapi's [HTTPException], what [exit]
    and a console at its end raise, and what the interpreter raises when its
    stack is full. *)
Inductive exception : Type :=
| Builtin (e : exn)
| HTTPException (status_code : Z) (detail : str)
| SystemExit (code : Z)
| EOFError
| RecursionError.

(** The outcome of a call of that code. *)
Inductive outcome (A : Type) : Type :=
| Returns (a : A)
| Raises (e : exception).
Arguments Returns {A} a.
Arguments Raises {A} e.

#[export] Instance outcome_ret : MRet outcome := fun A a => Returns a.
#[export] Instance outcome_bind : MBind outcome := fun A B f r =>
  match r with
  | Returns a => f a
  | Raises e => Raises e
  end.

(** *** [PDFProcessor]: text extraction *)

(** The two PDF libraries. Each reads the file at a path (its bytes, or
    nothing when the file does not exist) and gives the texts of its pages,
    or the message of the exception that opening, parsing or extracting
    raises. *)
Class PdfReaders : Type := {
  pypdf2_pages : option bytes -> str + list str;
  pymupdf_pages : option bytes -> str + list str
}.

(** The dictionary [process_pdf] returns. *)
Module ProcessedPDF.
Record t : Type := mk {
  full_text : str;
  chunks : list Chunk;
  total_chunks : Z;
  total_words : Z
}.
End ProcessedPDF.

Section Extraction.
Context {pdf : PdfReaders}.

(** The loop [text += page_text + "\n"] over the pages. *)
Definition pages_text (pages : list str) : str :=
  foldl (fun text page => text ++ page ++ [10%N]) [] pages.

(** [PDFProcessor.extract_text_pypdf2] *)
Definition extract_text_pypdf2 (files : gmap string bytes) (file_path : string)
  : outcome str :=
  match pypdf2_pages (files !! file_path) with
  | inr pages => Returns (pages_text pages)
  | inl e =>
      Raises (HTTPException 400 (lit "PyPDF2 extraction failed: " ++ e))
  end.

(** [PDFProcessor.extract_text_pymupdf] *)
Definition extract_text_pymupdf (files : gmap string bytes) (file_path : string)
  : outcome str :=
  match pymupdf_pages (files !! file_path) with
  | inr pages => Returns (pages_text pages)
  | inl e =>
      Raises (HTTPException 400 (lit "PyMuPDF extraction failed: " ++ e))
  end.

(** [PDFProcessor.extract_text]: each [try] returns the text it got when the
    text has more than whitespace, and lets go of anything raised. *)
Definition extract_text (files : gmap string bytes) (file_path : string)
  : outcome str :=
  let fallback :=
    let failed :=
      Raises (HTTPException 400 (lit "Failed to extract text from PDF")) in
    match extract_text_pymupdf files file_path with
    | Returns text => if truthy (strip text) then Returns text else failed
    | Raises _ => failed
    end in
  match extract_text_pypdf2 files file_path with
  | Returns text => if truthy (strip text) then Returns text else fallback
  | Raises _ => fallback
  end.

(** [PDFProcessor.process_pdf] *)
Definition process_pdf (self : PDFProcessor) (files : gmap string bytes)
    (file_path : string) : outcome ProcessedPDF.t :=
  text ← extract_text files file_path;
  match chunk_text self text with
  | Raised e => Raises (Builtin e)
  | Ok chunks =>
      Returns {| ProcessedPDF.full_text := text;
                 ProcessedPDF.chunks := chunks;
                 ProcessedPDF.total_chunks := len chunks;
                 ProcessedPDF.total_words := len (split text) |}
  end.

End Extraction.

(** *** The tables of the database *)

(** A row of [files]. The two timestamps are the database's: [created_at] is
    the time the row was inserted ([server_default=func.now()]), and
    [updated_at] the time of its last update ([onupdate=func.now()]), if it
    was ever updated. *)
Module FileModel.
Record t : Type := mk {
  filename : str;
  original_filename : str;
  file_path : string;
  file_size : Z;
  mime_type : str;
  owner_id : Z;
  project_id : option Z;
  is_processed : bool;
  processing_status : string;
  created_at : Z;
  updated_at : option Z
}.
End FileModel.

#[export] Instance FileModel_eq_dec : EqDecision FileModel.t.
Proof. solve_decision. Defined.

(** A row of [projects] (without its timestamps). *)
Module Project.
Record t : Type := mk {
  name : str;
  description : option str;
  owner_id : Z
}.
End Project.

(** The database: each table by its primary key [id]. *)
Record database : Type := mkDatabase {
  files : gmap Z FileModel.t;
  projects : gmap Z Project.t
}.

(** *** [app/api/files.py]: the background task *)

Section Background.
Context {emb : Embeddings} {pkl : Pickle} {llm : LLM} {cfg : Settings}
        {pdf : PdfReaders}.
Variable pdf_processor : PDFProcessor.

(** The two assignments to [db_file] of the [try] block. *)
Definition set_completed (db_file : FileModel.t) : FileModel.t :=
  {| FileModel.filename := FileModel.filename db_file;
     FileModel.original_filename := FileModel.original_filename db_file;
     FileModel.file_path := FileModel.file_path db_file;
     FileModel.file_size := FileModel.file_size db_file;
     FileModel.mime_type := FileModel.mime_type db_file;
     FileModel.owner_id := FileModel.owner_id db_file;
     FileModel.project_id := FileModel.project_id db_file;
     FileModel.is_processed := true;
     FileModel.processing_status := "completed";
     FileModel.created_at := FileModel.created_at db_file;
     FileModel.updated_at := FileModel.updated_at db_file |}.

(** The assignment to [db_file] of the handler of the exception. *)
Definition set_failed (db_file : FileModel.t) : FileModel.t :=
  {| FileModel.filename := FileModel.filename db_file;
     FileModel.original_filename := FileModel.original_filename db_file;
     FileModel.file_path := FileModel.file_path db_file;
     FileModel.file_size := FileModel.file_size db_file;
     FileModel.mime_type := FileModel.mime_type db_file;
     FileModel.owner_id := FileModel.owner_id db_file;
     FileModel.project_id := FileModel.project_id db_file;
     FileModel.is_processed := FileModel.is_processed db_file;
     FileModel.processing_status := "failed";
     FileModel.created_at := FileModel.created_at db_file;
     FileModel.updated_at := FileModel.updated_at db_file |}.

(** [db.commit()] after assignments to the loaded row [db_file] of [file_id]
    that make it [assigned]. The session writes the row only when a column
    has a new value (an assignment of the value the column has already is no
    change, and no UPDATE is sent); with the UPDATE the database sets
    [updated_at] to its time, [now]. *)
Definition commit (now file_id : Z) (db_file assigned : FileModel.t)
    (db : database) : database :=
  if decide (assigned = db_file) then db
  else
    {| files :=
         <[file_id :=
             {| FileModel.filename := FileModel.filename assigned;
                FileModel.original_filename :=
                  FileModel.original_filename assigned;
                FileModel.file_path := FileModel.file_path assigned;
                FileModel.file_size := FileModel.file_size assigned;
                FileModel.mime_type := FileModel.mime_type assigned;
                FileModel.owner_id := FileModel.owner_id assigned;
                FileModel.project_id := FileModel.project_id assigned;
                FileModel.is_processed := FileModel.is_processed assigned;
                FileModel.processing_status :=
                  FileModel.processing_status assigned;
                FileModel.created_at := FileModel.created_at assigned;
                FileModel.updated_at := Some now |}]>
         (files db);
       projects := projects db |}.

(** The two assignments to [db_file] and the commit, on success. *)
Definition mark_completed (now file_id : Z) (db_file : FileModel.t)
    (db : database) : database :=
  commit now file_id db_file (set_completed db_file) db.

(** The assignment to [db_file] and the commit, after an exception. *)
Definition mark_failed (now file_id : Z) (db_file : FileModel.t)
    (db : database) : database :=
  commit now file_id db_file (set_failed db_file) db.

(** [if project_id:] on an optional integer: there is one, and it is not 0. *)
Definition given (project_id : option Z) : option Z :=
  match project_id with
  | Some p => if decide (p = 0) then None else Some p
  | None => None
  end.

(** [process_file_async]: the state is the database and the world of the
    pipeline, whose files the uploaded PDF is one of; [now] is the time of
    the database when the task commits. What the handler of the exception
    prints is left out. *)
Definition process_file_async (file_id : Z) (project_id : option Z) (now : Z)
    (db : database) (w : world) : database * world :=
  match files db !! file_id with
  | None => (db, w)
  | Some db_file =>
      match process_pdf pdf_processor (fs w) (FileModel.file_path db_file) with
      | Raises _ => (mark_failed now file_id db_file db, w)
      | Returns result =>
          match given project_id with
          | Some project_id =>
              match exec (add_documents_to_project
                            (ProcessedPDF.chunks result) file_id project_id) w
              with
              | (Ok _, w') => (mark_completed now file_id db_file db, w')
              | (Raised _, w') => (mark_failed now file_id db_file db, w')
              end
          | None => (mark_completed now file_id db_file db, w)
          end
      end
  end.

End Background.

(** [delete_file]: what it returns or raises, the database and the files
    afterwards. The dictionary it returns has the one key ["message"]. *)
Definition delete_file {emb : Embeddings} (file_id current_user : Z)
    (db : database) (w : world) : outcome str * database * world :=
  let not_found := Raises (HTTPException 404 (lit "File not found")) in
  match files db !! file_id with
  | Some file =>
      if decide (FileModel.owner_id file = current_user) then
        let w :=
          if bool_decide (is_Some (fs w !! FileModel.file_path file))
          then set_fs (delete (FileModel.file_path file) (fs w)) w
          else w in
        (Returns (lit "File deleted successfully"),
         {| files := delete file_id (files db); projects := projects db |}, w)
      else (not_found, db, w)
  | None => (not_found, db, w)
  end.

(** *** [app/api/qa.py] *)

(** [str(e)] of an exception of the pipeline. *)
Class ExceptionStr : Type := {
  exception_str : exn -> str
}.

(** The body of a [QuestionResponse]. *)
Module QuestionResponse.
Record t {emb : Embeddings} : Type := mk {
  answer : str;
  sources : list Source;
  project_stats : Stats
}.
End QuestionResponse.

(** The dictionary of [summarize_project] and of [compare_papers], whose
    first key is ["summary"] for the one and ["comparison"] for the other. *)
Module Report.
Record t {emb : Embeddings} : Type := mk {
  text : str;
  sources : list Source;
  project_name : str
}.
End Report.

Section Endpoints.
Context {emb : Embeddings} {met : Metric} {pkl : Pickle} {llm : LLM}
        {cfg : Settings} {exs : ExceptionStr}.

(** [db.query(Project).filter(Project.id == project_id,
    Project.owner_id == current_user.id).first()] *)
Definition owned_project (db : database) (project_id user_id : Z)
  : option Project.t :=
  match projects db !! project_id with
  | Some project =>
      if decide (Project.owner_id project = user_id) then Some project
      else None
  | None => None
  end.

Definition project_not_found : exception :=
  HTTPException 404 (lit "Project not found").

(** [ask_question] *)
Definition ask_question (question : str) (project_id : Z) (current_user : Z)
    (db : database) (w : world) : outcome QuestionResponse.t * world :=
  match owned_project db project_id current_user with
  | None => (Raises project_not_found, w)
  | Some project =>
      let failed e :=
        Raises (HTTPException 500
                  (lit "Error processing question: " ++ exception_str e)) in
      match exec (query question project_id) w with
      | (Raised e, w) => (failed e, w)
      | (Ok result, w) =>
          match exec (get_project_stats project_id) w with
          | (Raised e, w) => (failed e, w)
          | (Ok project_stats, w) =>
              (Returns {| QuestionResponse.answer := answer result;
                          QuestionResponse.sources := sources result;
                          QuestionResponse.project_stats := project_stats |},
               w)
          end
      end
  end.

(** The endpoint [get_project_stats] of [qa.py]. *)
Definition get_project_stats_endpoint (project_id : Z) (current_user : Z)
    (db : database) (w : world) : outcome Stats * world :=
  match owned_project db project_id current_user with
  | None => (Raises project_not_found, w)
  | Some project =>
      match exec (get_project_stats project_id) w with
      | (Raised e, w) =>
          (Raises (HTTPException 500
                     (lit "Error getting project stats: " ++ exception_str e)),
           w)
      | (Ok stats, w) => (Returns stats, w)
      end
  end.

Definition summary_question : str :=
  lit "Please provide a comprehensive summary of all the papers in this project. Include the main topics, key findings, methodologies used, and any important insights. Organize the summary in a clear and structured way.".

Definition comparison_question : str :=
  lit "Please compare and contrast the papers in this project. Highlight similarities and differences in methodologies, findings, and approaches. Identify any gaps or areas where the papers complement each other.".

(** [summarize_project] *)
Definition summarize_project (project_id : Z) (current_user : Z)
    (db : database) (w : world) : outcome Report.t * world :=
  match owned_project db project_id current_user with
  | None => (Raises project_not_found, w)
  | Some project =>
      match exec (query summary_question project_id) w with
      | (Raised e, w) =>
          (Raises (HTTPException 500
                     (lit "Error generating summary: " ++ exception_str e)),
           w)
      | (Ok result, w) =>
          (Returns {| Report.text := answer result;
                      Report.sources := sources result;
                      Report.project_name := Project.name project |}, w)
      end
  end.

(** [compare_papers] *)
Definition compare_papers (project_id : Z) (current_user : Z)
    (db : database) (w : world) : outcome Report.t * world :=
  match owned_project db project_id current_user with
  | None => (Raises project_not_found, w)
  | Some project =>
      match exec (query comparison_question project_id) w with
      | (Raised e, w) =>
          (Raises (HTTPException 500
                     (lit "Error generating comparison: " ++ exception_str e)),
           w)
      | (Ok result, w) =>
          (Returns {| Report.text := answer result;
                      Report.sources := sources result;
                      Report.project_name := Project.name project |}, w)
      end
  end.

End Endpoints.

(** What an endpoint may do from the world [w], for a project that is the
    user's ([mine]) or not: return, which it does for the user's project
    only; raise the [HTTPException] of an unknown project, which it does for
    no project of the user, with the world as it was; or raise one of status
    500, for the user's project; in each case with every file as it was. *)
Definition http_only {emb : Embeddings} {A} (mine : Prop) (w : world)
    (r : outcome A * world) : Prop :=
  fs r.2 = fs w ∧
  match r.1 with
  | Returns _ => mine
  | Raises e =>
      e = project_not_found ∧ ¬ mine ∧ r.2 = w ∨
      mine ∧ ∃ detail, e = HTTPException 500 detail
  end.

(** *** [APIKeyManager] *)

(** The manager: its [_api_key]. *)
Record APIKeyManager : Type := mkAPIKeyManager {
  _api_key : option str
}.

(** Where a key can come from outside the manager: the environment variable
    [UPSTAGE_API_KEY], and [settings.upstage_api_key]. *)
Record key_sources : Type := mkKeySources {
  UPSTAGE_API_KEY : option str;
  upstage_api_key : str
}.

(** [APIKeyManager._prompt_for_api_key], over the lines the user types: it
    returns what it returns or raises, the manager, and the lines not read
    yet. The method calls itself after a wrong choice and after an empty
    key, each time one frame deeper on the interpreter's stack: [depth] is
    the number of nested calls of the method that the stack has room for,
    and the call after that raises [RecursionError]. What the method prints
    is left out, and so is how much of the stack [print], [input], [getpass]
    and [exit] need inside the innermost call (which moves the point where
    [RecursionError] is raised by a few lines, not the fact that it is). *)
Fixpoint _prompt_for_api_key (self : APIKeyManager) (depth : nat)
    (console : list str) : outcome str * APIKeyManager * list str :=
  match depth with
  | O => (Raises RecursionError, self, console)
  | S depth =>
      match console with
      | [] => (Raises EOFError, self, [])
      | line :: console =>
          let choice := strip line in
          if decide (choice = lit "1") then
            match console with
            | [] => (Raises EOFError, self, [])
            | api_key :: console =>
                if truthy (strip api_key)
                then (Returns (strip api_key),
                      {| _api_key := Some (strip api_key) |}, console)
                else _prompt_for_api_key self depth console
            end
          else if decide (choice = lit "2")
          then (Raises (SystemExit 1), self, console)
          else if decide (choice = lit "3")
          then (Raises (SystemExit 1), self, console)
          else _prompt_for_api_key self depth console
      end
  end.

(** [if self._api_key:] and the like, on an optional string. *)
Definition nonempty (key : option str) : option str :=
  match key with
  | Some k => if truthy k then Some k else None
  | None => None
  end.

(** [APIKeyManager.get_api_key], with the room [depth] that the stack has
    for calls of [_prompt_for_api_key] when it is called. *)
Definition get_api_key (self : APIKeyManager) (env : key_sources)
    (depth : nat) (console : list str)
  : outcome str * APIKeyManager * list str :=
  match nonempty (_api_key self) with
  | Some key => (Returns key, self, console)
  | None =>
      match nonempty (UPSTAGE_API_KEY env) with
      | Some env_key => (Returns env_key, {| _api_key := Some env_key |}, console)
      | None =>
          if truthy (upstage_api_key env)
          then (Returns (upstage_api_key env),
                {| _api_key := Some (upstage_api_key env) |}, console)
          else _prompt_for_api_key self depth console
      end
  end.

(** [APIKeyManager.set_api_key] *)
Definition set_api_key (self : APIKeyManager) (api_key : str) : APIKeyManager :=
  {| _api_key := Some api_key |}.

(** [APIKeyManager.clear_api_key] *)
Definition clear_api_key (self : APIKeyManager) : APIKeyManager :=
  {| _api_key := None |}.

(** ** Example instances of the code around the pipeline *)

(** A reader that takes the bytes of a file for the text of its one page,
    and fails on a missing file. *)
Definition example_reader (data : option bytes) : str + list str :=
  match data with
  | Some data => inr [List.map Byte.to_N data]
  | None => inl (lit "No such file or directory")
  end.

Definition example_pdf_readers : PdfReaders :=
  {| pypdf2_pages := example_reader; pymupdf_pages := example_reader |}.

Definition example_exception_str : ExceptionStr :=
  {| exception_str := λ e,
       match e with
       | UnpicklingError => lit "invalid load key"
       | FileNotFoundError => lit "No such file or directory"
       | _ => lit "error"
       end |}.

(** The row of an uploaded file, as [upload_file] leaves it. *)
Definition example_file : FileModel.t :=
  {| FileModel.filename := lit "0001.pdf";
     FileModel.original_filename := lit "paper.pdf";
     FileModel.file_path := "uploads/0001.pdf";
     FileModel.file_size := 9;
     FileModel.mime_type := lit "application/pdf";
     FileModel.owner_id := 10;
     FileModel.project_id := Some 1;
     FileModel.is_processed := false;
     FileModel.processing_status := "processing";
     FileModel.created_at := 1000;
     FileModel.updated_at := None |}.

(** The row of a file that is no longer on disk. *)
Definition missing_file : FileModel.t :=
  {| FileModel.filename := lit "0002.pdf";
     FileModel.original_filename := lit "draft.pdf";
     FileModel.file_path := "uploads/0002.pdf";
     FileModel.file_size := 4;
     FileModel.mime_type := lit "application/pdf";
     FileModel.owner_id := 10;
     FileModel.project_id := Some 1;
     FileModel.is_processed := false;
     FileModel.processing_status := "processing";
     FileModel.created_at := 1000;
     FileModel.updated_at := None |}.

(** Files 7 and 8, projects 1 and 2 of user 10, project 3 of user 11. *)
Definition example_database : database :=
  {| files := {[ 7 := example_file; 8 := missing_file ]};
     projects :=
       {[ 1 := {| Project.name := lit "Thesis"; Project.description := None;
                  Project.owner_id := 10 |};
          2 := {| Project.name := lit "Survey"; Project.description := None;
                  Project.owner_id := 10 |};
          3 := {| Project.name := lit "Other"; Project.description := None;
                  Project.owner_id := 11 |} ]} |}.

(** [example_world] with the uploaded file of [example_file], whose text is
    "a b c d e". *)
Definition upload_world : @world example_embeddings :=
  @mkWorld example_embeddings
    (<["uploads/0001.pdf" :=
         [Byte.x61; Byte.x20; Byte.x62; Byte.x20; Byte.x63; Byte.x20; Byte.x64;
          Byte.x20; Byte.x65]]>
       (@fs example_embeddings example_world))
    [] None.

(** A world where the index file of project 1 holds no pickle. *)
Definition broken_world : @world example_embeddings :=
  @mkWorld example_embeddings
    {[ @index_path example_settings 1 := [] ]} [] None.

(** * Properties of the chunker *)

Section Split.

Lemma split_from_word (w cur rest : str) :
  Forall (λ c, isspace c = false) w →
  split_from cur (w ++ rest) = split_from (cur ++ w) rest.
Proof.
  intros Hw. revert cur.
  induction Hw as [|c w Hc _ IH]; intros cur; simpl.
  - by rewrite app_nil_r.
  - rewrite Hc, IH. by rewrite <- app_assoc.
Qed.

Lemma split_from_words (cur s : str) :
  Forall (λ c, isspace c = false) cur →
  Forall is_word (split_from cur s).
Proof.
  revert cur. induction s as [|c s IH]; intros cur Hcur; simpl.
  - case_decide; [constructor|]. by repeat constructor.
  - destruct (isspace c) eqn:Hc.
    + case_decide; [by apply IH|].
      constructor; [done|]. by apply IH.
    + apply IH. apply Forall_app; split; [done|]. by repeat constructor.
Qed.

Lemma split_words (s : str) : Forall is_word (split s).
Proof. by apply split_from_words. Qed.

(** The words of a text are its characters without the whitespace. *)
Lemma split_from_concat (cur s : str) :
  concat (split_from cur s) = cur ++ filter (λ c, isspace c = false) s.
Proof.
  revert cur. induction s as [|c s IH]; intros cur; cbn [split_from].
  - case_decide as Hcur; simpl; [by rewrite Hcur | by rewrite !app_nil_r].
  - rewrite filter_cons. destruct (isspace c) eqn:Hc.
    + destruct (decide (true = false)) as [?|_]; [done|].
      case_decide as Hcur; simpl; rewrite IH; [by rewrite Hcur|done].
    + destruct (decide (false = false)) as [_|?]; [|done].
      rewrite IH, <- app_assoc. done.
Qed.

Lemma split_concat (s : str) :
  concat (split s) = filter (λ c, isspace c = false) s.
Proof. apply split_from_concat. Qed.

Lemma split_join (ws : list str) :
  Forall is_word ws → split (join (lit " ") ws) = ws.
Proof.
  unfold split.
  induction 1 as [|w ws [Hne Hw] Hws IH]; [done|].
  destruct ws as [|w' ws].
  - simpl. rewrite <- (app_nil_r w) at 1.
    rewrite split_from_word by done. simpl. by case_decide.
  - change (join (lit " ") (w :: w' :: ws))
      with (w ++ lit " " ++ join (lit " ") (w' :: ws)).
    rewrite split_from_word by done.
    change (lit " " ++ ?x) with (32%N :: x).
    cbn [split_from app]. change (isspace 32) with true. cbn iota.
    case_decide; [done|]. by rewrite IH.
Qed.

End Split.

Section Ranges.

Lemma range_length_forward (n step : Z) :
  0 ≤ n → 0 < step → range_length 0 n step = (n + step - 1) / step.
Proof.
  intros Hn Hstep. unfold range_length.
  rewrite (proj2 (Z.ltb_lt 0 step)) by done.
  destruct (Z.ltb_spec 0 n).
  - replace (n + step - 1) with (n - 0 - 1 + 1 * step) by lia.
    by rewrite Z.div_add by lia.
  - assert (n = 0) as -> by lia.
    symmetry. apply Z.div_small. lia.
Qed.

Lemma window_count_lt (n step : Z) (k : nat) :
  0 ≤ n → 0 < step →
  (k < window_count n step)%nat ↔ Z.of_nat k * step < n.
Proof.
  intros Hn Hstep. unfold window_count.
  pose proof (Z.mul_div_le (n + step - 1) step Hstep).
  pose proof (Z.mul_succ_div_gt (n + step - 1) step Hstep).
  assert (0 ≤ (n + step - 1) / step) by (apply Z.div_pos; lia).
  split; intros Hk.
  - assert (Z.of_nat k + 1 ≤ (n + step - 1) / step) by lia. nia.
  - assert (Z.of_nat k < (n + step - 1) / step) by nia. lia.
Qed.

Lemma range_forward (n step : Z) :
  0 ≤ n → 0 < step →
  range 0 n step =
  Ok (List.map (λ k : nat, 0 + Z.of_nat k * step) (seq 0 (window_count n step))).
Proof.
  intros Hn Hstep. unfold range.
  rewrite (proj2 (Z.eqb_neq step 0)) by lia.
  by rewrite range_length_forward.
Qed.

Lemma range_backward (n step : Z) :
  0 ≤ n → step < 0 → range 0 n step = Ok [].
Proof.
  intros Hn Hstep. unfold range, range_length.
  rewrite (proj2 (Z.eqb_neq step 0)) by lia.
  rewrite (proj2 (Z.ltb_ge 0 step)) by lia.
  by rewrite (proj2 (Z.ltb_ge n 0)) by lia.
Qed.

Lemma slice_forward {A} (l : list A) (i size : Z) :
  0 ≤ i → 0 ≤ size →
  slice l i (i + size) = take (Z.to_nat size) (drop (Z.to_nat i) l).
Proof.
  intros Hi Hsize. unfold slice, slice_index, len.
  rewrite (proj2 (Z.ltb_ge i 0)), (proj2 (Z.ltb_ge (i + size) 0)) by lia.
  destruct (decide (Z.of_nat (length l) ≤ i)) as [Hout|Hin].
  - rewrite !(drop_ge l) by lia. by rewrite !take_nil.
  - rewrite (Z.min_l i) by lia.
    destruct (decide (i + size ≤ Z.of_nat (length l))).
    + rewrite Z.min_l by lia. f_equal. lia.
    + rewrite Z.min_r by lia.
      rewrite !take_ge; [done | rewrite length_drop; lia ..].
Qed.

End Ranges.

Section Windows.
Variables (size step : Z) (words : list str).
Hypothesis size_pos : 0 < size.
Hypothesis step_pos : 0 < step.

Lemma window_lookup (k j : nat) :
  window size step words k !! j =
  if decide (Z.of_nat j < size) then words !! (Z.to_nat (Z.of_nat k * step) + j)%nat
  else None.
Proof.
  unfold window. case_decide.
  - rewrite lookup_take_lt by lia. apply lookup_drop.
  - apply lookup_take_ge. lia.
Qed.

Lemma window_length (k : nat) :
  len (window size step words k) =
  Z.max 0 (Z.min size (len words - Z.of_nat k * step)).
Proof.
  unfold window, len. rewrite length_take, length_drop. lia.
Qed.

Lemma window_words (k : nat) :
  Forall is_word words → Forall is_word (window size step words k).
Proof.
  intros Hw. unfold window.
  by apply Forall_take, Forall_drop.
Qed.

Lemma chunk_text_body_window (self : PDFProcessor) (chunks : list Chunk) (k : nat) :
  chunk_size self = size →
  chunk_text_body self words chunks (0 + Z.of_nat k * step) =
  Ok (chunks ++ [ {| text := text (window_chunk size step words k);
                     chunk_index := len chunks;
                     estimated_page := estimated_page (window_chunk size step words k);
                     word_count := word_count (window_chunk size step words k) |} ]).
Proof.
  intros Hsize. unfold chunk_text_body, floordiv. rewrite Hsize.
  rewrite (proj2 (Z.eqb_neq size 0)) by lia.
  rewrite Z.add_0_l, slice_forward by lia. done.
Qed.

Lemma for_each_windows (self : PDFProcessor) (m a : nat) (chunks : list Chunk) :
  chunk_size self = size → length chunks = a →
  for_each (List.map (λ k : nat, 0 + Z.of_nat k * step) (seq a m))
           (chunk_text_body self words) chunks =
  Ok (chunks ++ List.map (window_chunk size step words) (seq a m)).
Proof.
  intros Hsize. revert a chunks.
  induction m as [|m IH]; intros a chunks Hlen; simpl.
  - by rewrite app_nil_r.
  - rewrite chunk_text_body_window by done. simpl.
    rewrite (IH (S a)) by (rewrite length_app; simpl; lia).
    rewrite <- app_assoc. simpl. unfold len. by rewrite Hlen.
Qed.

End Windows.

Section Chunker.
Variable self : PDFProcessor.
Variable txt : str.
Hypothesis size_pos : 0 < chunk_size self.
Hypothesis step_pos : chunk_overlap self < chunk_size self.

Let size := chunk_size self.
Let step := chunk_size self - chunk_overlap self.
Let words := split txt.

Lemma chunk_text_windows :
  chunk_text self txt =
  Ok (sliding_window_chunks (chunk_size self) (chunk_overlap self) txt).
Proof.
  unfold chunk_text, sliding_window_chunks.
  rewrite range_forward by (unfold len; lia). simpl.
  by rewrite (for_each_windows size step) by (done || lia).
Qed.

Lemma sliding_window_chunks_lookup (k : nat) (c : Chunk) :
  sliding_window_chunks (chunk_size self) (chunk_overlap self) txt !! k = Some c ↔
  c = window_chunk size step words k ∧ Z.of_nat k * step < len words.
Proof.
  unfold sliding_window_chunks. fold words step size.
  change (map ?f ?l) with (f <$> l).
  rewrite list_lookup_fmap_Some. setoid_rewrite lookup_seq.
  rewrite <- (window_count_lt (len words) step k) by (unfold len; lia).
  split.
  - intros (k' & -> & -> & ?). done.
  - intros [-> ?]. exists k. done.
Qed.

Lemma window_chunk_words (k : nat) :
  split (text (window_chunk size step words k)) = window size step words k.
Proof.
  simpl. apply split_join, window_words, split_words.
Qed.

Lemma window_chunk_count (k : nat) :
  Z.of_nat k * step < len words →
  word_count (window_chunk size step words k) =
  Z.min size (len words - Z.of_nat k * step).
Proof.
  intros Hk. simpl. rewrite window_length; unfold size, step; lia.
Qed.

Lemma window_chunk_slice (k : nat) :
  Z.of_nat k * step < len words →
  slice words (start_offset self (window_chunk size step words k))
              (end_offset self (window_chunk size step words k)) =
  window size step words k.
Proof.
  intros Hk. unfold end_offset, start_offset.
  rewrite window_chunk_count by done. cbn [chunk_index window_chunk].
  fold step. assert (0 ≤ Z.of_nat k * step) by (unfold step; nia).
  rewrite slice_forward by (unfold size in *; lia).
  unfold window. apply list_eq. intros j.
  rewrite !lookup_take, !lookup_drop.
  repeat case_decide; try done; try lia.
  symmetry. apply lookup_ge_None_2. unfold len in *. lia.
Qed.

End Chunker.

(** [window_at H as Hk]: the chunk that [H] finds at an index of the chunk
    sequence is the chunk of the window of that index, which starts inside
    the text ([Hk]). *)
Tactic Notation "window_at" hyp(H) "as" simple_intropattern(Hk) :=
  apply sliding_window_chunks_lookup in H as [-> Hk]; [|(done || lia)..].

(** C1, as the code has it: with [overlap_words >= chunk_size_words] the
    chunker terminates on every text; it raises (Python's [ValueError], for
    the zero step of the range) when the two are equal, and returns an empty
    chunk sequence without any error when the overlap is larger. *)
Theorem chunk_text_overlap_not_below_size (self : PDFProcessor) (txt : str) :
  chunk_size self ≤ chunk_overlap self →
  chunk_text self txt =
  if decide (chunk_overlap self = chunk_size self) then Raised ValueError
  else Ok [].
Proof.
  intros Hge. unfold chunk_text. case_decide as Heq.
  - rewrite Heq, Z.sub_diag. done.
  - rewrite range_backward by (unfold len; lia). done.
Qed.

Lemma chunk_text_overlap_not_below_size_witness :
  chunk_text (mkPDFProcessor 2 2) (lit "a b c") = Raised ValueError.
Proof.
  apply (chunk_text_overlap_not_below_size (mkPDFProcessor 2 2) (lit "a b c")).
  simpl. lia.
Defined.

(** C1 fails as stated: with chunk size 1 and overlap 2 the chunker returns
    the empty chunk sequence for the text "a b", and raises nothing. *)
Lemma chunk_text_overlap_above_size_silent :
  let self := mkPDFProcessor 1 2 in
  chunk_size self ≤ chunk_overlap self ∧
  chunk_text self (lit "a b") = Ok [] ∧
  ¬ (∃ e, chunk_text self (lit "a b") = Raised e).
Proof.
  simpl. split; [lia|]. split; [reflexivity|].
  intros [e He]. vm_compute in He. discriminate.
Qed.

(** A chunk size of 0 is no word count: with a lower overlap still (a
    negative one), the page estimate divides by zero. *)
Example chunk_text_size_zero :
  chunk_text (mkPDFProcessor 0 (-1)) (lit "a") = Raised ZeroDivisionError.
Proof. reflexivity. Qed.

(** C4: for a valid configuration (a positive chunk size above the overlap)
    the chunker returns, for every text, the chunks of the sliding windows
    over the whitespace-delimited words of the text: window [k] holds up to
    [chunk_size] words from offset [k * (chunk_size - overlap)], its chunk has
    index [k] and page [floor (offset / chunk_size) + 1]; the empty text
    gives no chunk and no error. *)
Theorem chunk_text_sliding_windows (self : PDFProcessor) (txt : str) :
  0 < chunk_size self → chunk_overlap self < chunk_size self →
  let step := chunk_size self - chunk_overlap self in
  let chunks :=
    sliding_window_chunks (chunk_size self) (chunk_overlap self) txt in
  chunk_text self txt = Ok chunks ∧
  (∀ k : nat,
     is_Some (chunks !! k) ↔ Z.of_nat k * step < len (split txt)) ∧
  (∀ (k : nat) c, chunks !! k = Some c →
     let start_offset := Z.of_nat k * step in
     let chunk_words :=
       slice (split txt) start_offset (start_offset + chunk_size self) in
     text c = join (lit " ") chunk_words ∧
     chunk_index c = Z.of_nat k ∧
     estimated_page c = start_offset / chunk_size self + 1 ∧
     word_count c = len chunk_words) ∧
  chunk_text self [] = Ok [].
Proof.
  intros Hsize Hstep step chunks.
  split; [by apply chunk_text_windows|]. split; [|split].
  - intros k. unfold is_Some, chunks.
    setoid_rewrite sliding_window_chunks_lookup; [|done..].
    split; [by intros (c & _ & Hk)|]. intros Hk. eauto.
  - intros k c Hc. window_at Hc as Hk.
    assert (0 ≤ Z.of_nat k * step) by (unfold step; nia).
    cbn zeta. rewrite slice_forward by lia. done.
  - rewrite (chunk_text_windows self []) by done.
    unfold sliding_window_chunks, window_count.
    change (len (split [])) with 0.
    rewrite Z.div_small by lia. done.
Qed.

Lemma chunk_text_sliding_windows_witness :
  chunk_text (mkPDFProcessor 3 1) (lit "a b c d e f g") =
  Ok [ mkChunk (lit "a b c") 0 1 3; mkChunk (lit "c d e") 1 1 3;
       mkChunk (lit "e f g") 2 2 3; mkChunk (lit "g") 3 3 1 ].
Proof.
  destruct (chunk_text_sliding_windows (mkPDFProcessor 3 1)
              (lit "a b c d e f g")) as [-> _]; [simpl; lia ..|].
  reflexivity.
Defined.

(** C5, as the code has it: in the chunk sequence of a document under a valid
    configuration, chunk indices count up from 0, every chunk holds between 1
    and [chunk_size] words (the words of the document from its start offset
    to its end offset), and two consecutive chunks share the smaller of the
    configured overlap and the later chunk's word count: the last that many
    words of the earlier chunk are the first words of the later one. When
    the overlap is at most half the chunk size, every pair of consecutive
    chunks shares exactly the configured overlap, the pair with the final
    chunk apart. *)
Theorem chunk_text_invariants (self : PDFProcessor) (txt : str)
    (chunks : list Chunk) :
  0 ≤ chunk_overlap self < chunk_size self →
  chunk_text self txt = Ok chunks →
  (∀ (k : nat) c, chunks !! k = Some c →
     chunk_index c = Z.of_nat k ∧
     word_count c = len (split (text c)) ∧
     1 ≤ word_count c ≤ chunk_size self ∧
     split (text c) =
       slice (split txt) (start_offset self c) (end_offset self c)) ∧
  (∀ (k : nat) c1 c2, chunks !! k = Some c1 → chunks !! S k = Some c2 →
     chunk_index c1 < chunk_index c2 ∧
     overlap self c1 c2 = Z.min (chunk_overlap self) (word_count c2) ∧
     drop (Z.to_nat (word_count c1 - overlap self c1 c2)) (split (text c1)) =
       take (Z.to_nat (overlap self c1 c2)) (split (text c2))) ∧
  (2 * chunk_overlap self ≤ chunk_size self →
   overlap_as_configured self chunks).
Proof.
  intros Hcfg Hrun.
  rewrite chunk_text_windows in Hrun by lia. injection Hrun as <-.
  assert (∀ (k : nat) c1 c2,
    sliding_window_chunks (chunk_size self) (chunk_overlap self) txt !! k
      = Some c1 →
    sliding_window_chunks (chunk_size self) (chunk_overlap self) txt !! S k
      = Some c2 →
    overlap self c1 c2 = Z.min (chunk_overlap self) (word_count c2) ∧
    word_count c1 - overlap self c1 c2 = chunk_size self - chunk_overlap self ∧
    Z.of_nat (S k) * (chunk_size self - chunk_overlap self) < len (split txt))
    as Hpair.
  { intros k c1 c2 H1 H2.
    window_at H1 as Hk1.
    window_at H2 as Hk2.
    unfold overlap, end_offset, start_offset.
    rewrite !window_chunk_count by (done || lia).
    cbn [chunk_index window_chunk]. lia. }
  split; [|split].
  - intros k c Hc.
    window_at Hc as Hk.
    split; [done|]. rewrite window_chunk_words by lia.
    split; [done|]. split.
    + rewrite window_chunk_count by (done || lia). unfold len in *. lia.
    + by rewrite window_chunk_slice by (done || lia).
  - intros k c1 c2 H1 H2.
    destruct (Hpair k c1 c2 H1 H2) as (Hov & Hdiff & Hk2).
    split; [|split; [done|]].
    { window_at H1 as _.
      window_at H2 as _.
      simpl. lia. }
    rewrite Hdiff, Hov.
    window_at H1 as Hk1.
    window_at H2 as _.
    rewrite !window_chunk_words by lia.
    rewrite window_chunk_count by (done || lia).
    apply list_eq. intros j.
    rewrite lookup_drop, lookup_take.
    rewrite !(window_lookup (chunk_size self)) by lia.
    assert (0 ≤ Z.of_nat k * (chunk_size self - chunk_overlap self)) by nia.
    repeat case_decide; try lia.
    + f_equal. lia.
    + apply lookup_ge_None_2. unfold len in *. lia.
    + done.
  - intros Hhalf k c1 c2 H1 H2 Hlast.
    destruct (Hpair k c1 c2 H1 H2) as (-> & _ & _).
    destruct (lookup_lt_is_Some_2 _ _ Hlast) as [c3 H3].
    window_at H2 as Hk2.
    apply sliding_window_chunks_lookup in H3 as [_ Hk3]; [|lia..].
    rewrite window_chunk_count by (done || lia). lia.
Qed.

Lemma chunk_text_invariants_witness :
  overlap_as_configured (mkPDFProcessor 3 1)
    [ mkChunk (lit "a b c") 0 1 3; mkChunk (lit "c d e") 1 1 3;
      mkChunk (lit "e f g") 2 2 3; mkChunk (lit "g") 3 3 1 ].
Proof.
  apply (chunk_text_invariants (mkPDFProcessor 3 1) (lit "a b c d e f g")).
  - simpl. lia.
  - reflexivity.
  - simpl. lia.
Defined.

(** C5 fails as stated: with chunk size 4 and overlap 3 the text "a b c d"
    gives the chunks "a b c d", "b c d", "c d" and "d"; the second and the
    third, neither of them the final chunk, share 2 words and not 3. *)
Lemma chunk_text_overlap_below_configured :
  let self := mkPDFProcessor 4 3 in
  let chunks := [ mkChunk (lit "a b c d") 0 1 4; mkChunk (lit "b c d") 1 1 3;
                  mkChunk (lit "c d") 2 1 2; mkChunk (lit "d") 3 1 1 ] in
  0 ≤ chunk_overlap self < chunk_size self ∧
  chunk_text self (lit "a b c d") = Ok chunks ∧
  ¬ overlap_as_configured self chunks.
Proof.
  simpl. split; [lia|]. split; [reflexivity|].
  intros Hclaim.
  specialize (Hclaim 1%nat _ _ eq_refl eq_refl). simpl in Hclaim.
  vm_compute in Hclaim. specialize (Hclaim ltac:(lia)). discriminate.
Qed.

(** C10: for every text and every valid configuration
    ([chunk_size_words > overlap_words >= 0]) the chunker returns a chunk
    sequence that covers the text: the word at every position of the text
    is a word of a chunk that holds that position; and every chunk has at
    least one word. *)
Theorem chunk_text_covers (self : PDFProcessor) (txt : str) :
  0 ≤ chunk_overlap self < chunk_size self →
  ∃ chunks, chunk_text self txt = Ok chunks ∧
    (∀ (p : nat) w, split txt !! p = Some w →
       ∃ c (j : nat), c ∈ chunks ∧ split (text c) !! j = Some w ∧
         start_offset self c + Z.of_nat j = Z.of_nat p) ∧
    (∀ c, c ∈ chunks → 1 ≤ word_count c ∧ word_count c = len (split (text c))).
Proof.
  intros Hcfg.
  exists (sliding_window_chunks (chunk_size self) (chunk_overlap self) txt).
  split; [apply chunk_text_windows; lia|]. split.
  - intros p w Hp.
    set (step := chunk_size self - chunk_overlap self).
    assert (Z.of_nat p < len (split txt)) as Hlt
      by (apply lookup_lt_Some in Hp; unfold len; lia).
    assert (0 < step) as Hstep by (unfold step; lia).
    pose proof (Z.mul_div_le (Z.of_nat p) step Hstep).
    pose proof (Z.mul_succ_div_gt (Z.of_nat p) step Hstep).
    assert (0 ≤ Z.of_nat p / step) by (apply Z.div_pos; lia).
    set (k := Z.to_nat (Z.of_nat p / step)).
    assert (Z.of_nat k = Z.of_nat p / step) as Hk by lia.
    exists (window_chunk (chunk_size self) step (split txt) k),
           (Z.to_nat (Z.of_nat p - Z.of_nat k * step)).
    split; [|split].
    + apply list_elem_of_lookup. exists k.
      apply sliding_window_chunks_lookup; [lia..|]. split; [done|].
      fold step. nia.
    + unfold step. rewrite window_chunk_words by lia. fold step.
      rewrite (window_lookup (chunk_size self) step) by lia.
      rewrite decide_True by (unfold step in *; nia).
      rewrite <- Hp. f_equal. nia.
    + unfold start_offset. cbn [chunk_index window_chunk]. fold step. nia.
  - intros c Hc. apply list_elem_of_lookup in Hc as [k Hc].
    window_at Hc as Hk.
    rewrite window_chunk_words by lia. split; [|done].
    rewrite window_chunk_count by (done || lia). lia.
Qed.

Lemma chunk_text_covers_witness :
  ∃ chunks, chunk_text (mkPDFProcessor 3 1) (lit "a b c d e f g") = Ok chunks ∧
    (∀ c, c ∈ chunks → 1 ≤ word_count c).
Proof.
  destruct (chunk_text_covers (mkPDFProcessor 3 1) (lit "a b c d e f g"))
    as (chunks & Hrun & _ & Hwords); [simpl; lia|].
  exists chunks. split; [exact Hrun|].
  intros c Hc. exact (proj1 (Hwords c Hc)).
Defined.

(** * Properties of the pipeline *)

Section PipelineFacts.
Context {emb : Embeddings} {met : Metric} {pkl : Pickle} {llm : LLM} {cfg : Settings}.

Lemma exec_bind {A B} (p : prog A) (f : A → prog B) (w : world) :
  exec (p ≫= f) w =
  match exec p w with
  | (Ok a, w') => exec (f a) w'
  | (Raised e, w') => (Raised e, w')
  end.
Proof.
  revert w. induction p as [a|e|X i k IH]; intros w; try done.
  change (Do i k ≫= f) with (Do i (λ x, k x ≫= f)). simpl.
  destruct (perform i w) as [[x|e] w']; [apply IH|done].
Qed.

Lemma exec_act {X} (i : instr X) (w : world) : exec (act i) w = perform i w.
Proof. unfold act. simpl. by destruct (perform i w) as [[x|e] w']. Qed.

Lemma steps_bind {A B} (p : prog A) (f : A → prog B) (w : world) :
  steps (p ≫= f) w =
  match exec p w with
  | (Ok a, w') => (steps p w + steps (f a) w')%nat
  | (Raised e, w') => steps p w
  end.
Proof.
  revert w. induction p as [a|e|X i k IH]; intros w; try done.
  change (Do i k ≫= f) with (Do i (λ x, k x ≫= f)). simpl.
  destruct (perform i w) as [[x|e] w']; [|done].
  rewrite IH. by destruct (exec (k x) w') as [[a|e] w''].
Qed.

Lemma crash_after_bind {A B} (n : nat) (p : prog A) (f : A → prog B)
    (w : world) :
  crash_after n (p ≫= f) w =
  match exec p w with
  | (Ok a, w') =>
      if decide (n ≤ steps p w)%nat then crash_after n p w
      else crash_after (n - steps p w) (f a) w'
  | (Raised e, w') => crash_after n p w
  end.
Proof.
  revert n w. induction p as [a|e|X i k IH]; intros n w.
  - change (Return a ≫= f) with (f a). simpl.
    case_decide; [|by rewrite Nat.sub_0_r].
    assert (n = 0%nat) as -> by lia. by destruct (f a).
  - by destruct n.
  - change (Do i k ≫= f) with (Do i (λ x, k x ≫= f)).
    destruct n as [|n]; simpl.
    + destruct (perform i w) as [[x|e] w']; [|done].
      by destruct (exec (k x) w') as [[a|e] w''].
    + destruct (perform i w) as [[x|e] w']; [|done].
      rewrite IH. destruct (exec (k x) w') as [[a|e] w'']; [|done].
      repeat case_decide; (done || lia).
Qed.

Lemma crash_after_all {A} (n : nat) (p : prog A) (w : world) :
  (steps p w ≤ n)%nat → crash_after n p w = (exec p w).2.
Proof.
  revert n w. induction p as [a|e|X i k IH]; intros n w Hn.
  - by destruct n.
  - by destruct n.
  - destruct n as [|n]; simpl in *;
      destruct (perform i w) as [[x|e] w']; try lia; [|done].
    apply IH. lia.
Qed.

Lemma exec_load_absent (project_id : Z) (w : world) :
  fs w !! index_path project_id = None →
  exec (load_vectorstore project_id) w = (Ok None, w).
Proof.
  intros Habsent. unfold load_vectorstore.
  rewrite exec_bind, exec_act. simpl. rewrite Habsent.
  rewrite bool_decide_eq_false_2; [done|]. by intros [? ?].
Qed.

Lemma exec_load_present (project_id : Z) (w : world) (data : bytes) :
  fs w !! index_path project_id = Some data →
  exec (load_vectorstore project_id) w =
  (match pickle_loads data with
   | Ok vectorstore => Ok (Some vectorstore)
   | Raised e => Raised e
   end, w).
Proof.
  intros Hdata. unfold load_vectorstore.
  rewrite exec_bind, exec_act. cbn [perform]. rewrite Hdata.
  rewrite bool_decide_eq_true_2 by eauto.
  rewrite exec_bind, exec_act. cbn [perform]. rewrite Hdata.
  by destruct (pickle_loads data).
Qed.

End PipelineFacts.


Section Query.
Context {emb : Embeddings} {met : Metric} {pkl : Pickle} {cfg : Settings}.

Lemma insert_sorted_perm {A} (leb : A → A → bool) (x : A) (l : list A) :
  insert_sorted leb x l ≡ₚ x :: l.
Proof.
  induction l as [|y l IH]; simpl; [done|].
  destruct (leb x y); [done|]. rewrite IH. apply Permutation_swap.
Qed.

Lemma sort_by_perm {A} (leb : A → A → bool) (l : list A) : sort_by leb l ≡ₚ l.
Proof.
  induction l as [|x l IH]; simpl; [done|].
  rewrite insert_sorted_perm. by rewrite IH.
Qed.

Lemma search_length (index : list Entry) (q : vector) (k : nat) :
  (length (search index q k) ≤ k)%nat.
Proof. unfold search. rewrite length_take. lia. Qed.

Lemma search_elem_of (index : list Entry) (q : vector) (k : nat) (e : Entry) :
  e ∈ search index q k → e ∈ index.
Proof.
  unfold search. intros He%subseteq_take. by rewrite sort_by_perm in He.
Qed.

Lemma foldl_stats_body (docs : list Document) (ids : gset Z) (n : Z) :
  foldl stats_body (ids, n) docs =
  (ids ∪ list_to_set (omap (λ doc, metadata doc !! "file_id") docs),
   n + len docs).
Proof.
  revert ids n. induction docs as [|doc docs IH]; intros ids n.
  - simpl. f_equal; [by rewrite union_empty_r_L | unfold len; simpl; lia].
  - cbn [foldl]. unfold stats_body at 2.
    destruct (metadata doc !! "file_id") as [f|] eqn:Hf;
      rewrite IH; cbn [omap list_omap]; rewrite Hf; f_equal;
      try (unfold len; simpl; lia).
    rewrite list_to_set_cons. by rewrite (assoc_L (∪)).
Qed.

Context {llm : LLM}.

(** C3: for every question and every project whose index file does not
    exist, [query] returns the fixed "no documents" answer with an empty
    source list; it raises nothing and leaves the world as it was: no call
    to the embedding service or to the generation service is made. *)
Theorem query_without_index (question : str) (project_id : Z) (w : world) :
  fs w !! index_path project_id = None →
  exec (query question project_id) w =
    (Ok {| answer :=
             lit "No documents found in this project. Please upload some PDF files first.";
           sources := [] |}, w) ∧
  calls (exec (query question project_id) w).2 = calls w.
Proof.
  intros Habsent.
  assert (exec (query question project_id) w =
          (Ok {| answer := no_documents_answer; sources := [] |}, w)) as Hrun.
  { unfold query. rewrite exec_bind, exec_load_absent by done. done. }
  rewrite Hrun. done.
Qed.

(** C9: [get_project_stats] reports, for a project whose index file holds an
    index, the number of entries of the index as [total_chunks], the distinct
    file ids among the entries as [file_ids], and their number as
    [total_documents]; for a project without an index file it reports 0
    documents, 0 chunks and no file id. It leaves the world as it was. *)
Theorem get_project_stats_counts (project_id : Z) (w : world) :
  (fs w !! index_path project_id = None →
   exec (get_project_stats project_id) w =
     (Ok {| total_documents := 0; total_chunks := 0; file_ids := [] |}, w)) ∧
  (∀ data index,
     fs w !! index_path project_id = Some data →
     pickle_loads data = Ok index →
     ∃ stats,
       exec (get_project_stats project_id) w = (Ok stats, w) ∧
       total_chunks stats = len (entries index) ∧
       total_documents stats = Z.of_nat (size (file_id_set index)) ∧
       NoDup (file_ids stats) ∧
       list_to_set (file_ids stats) = file_id_set index ∧
       (∀ f, f ∈ file_ids stats ↔
             ∃ e, e ∈ entries index ∧
                  metadata (document e) !! "file_id" = Some f)).
Proof.
  split.
  - intros Habsent. unfold get_project_stats.
    rewrite exec_bind, exec_load_absent by done. done.
  - intros data index Hdata Hload. unfold get_project_stats.
    rewrite exec_bind, (exec_load_present _ _ data), Hload by done.
    rewrite foldl_stats_body, union_empty_l_L. cbn [exec].
    eexists. split; [done|]. cbn [total_chunks total_documents file_ids].
    fold (file_id_set index).
    split; [unfold docstore_values, len; rewrite length_map; lia|].
    split; [done|]. split; [apply NoDup_elements|].
    split; [apply list_to_set_elements_L|].
    intros f. rewrite elem_of_elements. unfold file_id_set, docstore_values.
    rewrite elem_of_list_to_set, list_elem_of_omap.
    change (map document ?l) with (document <$> l).
    setoid_rewrite list_elem_of_fmap. split.
    + intros (doc & (e & -> & He) & Hf). eauto.
    + intros (e & He & Hf). eauto.
Qed.

End Query.

Section Answer.
Context {emb : Embeddings} {met : Metric} {pkl : Pickle} {cfg : Settings}.


Lemma exec_query_present {llm : LLM} (question : str) (project_id : Z) (w : world)
    (data : bytes) (index : FAISS) :
  fs w !! index_path project_id = Some data →
  pickle_loads data = Ok index →
  exec (query question project_id) w =
  (Ok {| answer :=
           invoke (PROMPT (join [10%N; 10%N]
                                (List.map page_content (retrieved index question)))
                          question);
         sources := List.map format_source (retrieved index question) |},
   {| fs := fs w;
      calls := calls w ++ [ CallEmbedQuery question;
                            CallLLM (PROMPT (join [10%N; 10%N]
                                (List.map page_content (retrieved index question)))
                          question) ];
      qa_chain := Some index |}).
Proof.
  intros Hdata Hload. unfold query.
  rewrite exec_bind, (exec_load_present _ _ data), Hload by done.
  cbn -[PROMPT retrieved lit join]. unfold log. cbn -[PROMPT retrieved lit join].
  by rewrite <- app_assoc.
Qed.

End Answer.

(** C8: for every question asked of a project whose index file holds an
    index, [query] returns at most 5 sources; every source carries the text of
    an entry of the index, that entry's metadata (with it the entry's
    [file_id] and [chunk_index]) and, as its page, the [estimated_page] of
    that metadata; and the sources are the same whatever the generation
    service answers. The sources are exactly the citations of the retrieved
    chunks, in the order of the retrieval: of the entries that the search of
    the index gives for the vector of the question with [k = 5], which are
    five entries, or all the entries of an index that has fewer. *)
Theorem query_sources_from_index {emb : Embeddings} {met : Metric}
    {pkl : Pickle} {cfg : Settings} (llm1 llm2 : LLM) (question : str) (project_id : Z)
    (w : world) (data : bytes) (index : FAISS) :
  fs w !! index_path project_id = Some data →
  pickle_loads data = Ok index →
  ∃ a1 a2 w1 w2,
    @exec _ llm1 _ (query question project_id) w = (Ok a1, w1) ∧
    @exec _ llm2 _ (query question project_id) w = (Ok a2, w2) ∧
    sources a1 = sources a2 ∧
    (length (sources a1) ≤ 5)%nat ∧
    Forall (λ s, ∃ e, e ∈ entries index ∧
              content s = page_content (document e) ∧
              source_metadata s = metadata (document e) ∧
              source_metadata s !! "file_id"
                = metadata (document e) !! "file_id" ∧
              source_metadata s !! "chunk_index"
                = metadata (document e) !! "chunk_index" ∧
              page s = match metadata (document e) !! "estimated_page" with
                       | Some p => inl p
                       | None => inr (lit "Unknown")
                       end)
           (sources a1) ∧
    sources a1 =
      List.map (λ e, {| content := page_content (document e);
                        source_metadata := metadata (document e);
                        page := match metadata (document e) !! "estimated_page" with
                                | Some p => inl p
                                | None => inr (lit "Unknown")
                                end |})
               (search (entries index) (embed_query question) 5) ∧
    length (sources a1) = min 5 (length (entries index)).
Proof.
  intros Hdata Hload.
  do 4 eexists.
  split; [by apply (exec_query_present (llm := llm1)) with data|].
  split; [by apply (exec_query_present (llm := llm2)) with data|].
  cbn [sources]. split; [done|]. split; [|split; [|split]].
  - unfold retrieved. rewrite !length_map. apply search_length.
  - apply Forall_forall. intros s Hs. unfold retrieved in Hs.
    change (map ?f ?l) with (f <$> l) in Hs.
    apply list_elem_of_fmap in Hs as (doc & -> & Hdoc).
    apply list_elem_of_fmap in Hdoc as (e & -> & He).
    exists e. split; [by apply search_elem_of in He|]. done.
  - unfold retrieved. by rewrite List.map_map.
  - unfold retrieved, search. rewrite !length_map, length_take.
    by rewrite (Permutation_length (sort_by_perm _ _)).
Qed.

Section Merge.
Context {emb : Embeddings} {llm : LLM}.

Lemma zip_with_embedded (es : list Entry) :
  Forall (λ e, embedding e = embed (page_content (document e))) es →
  zip_with mkEntry
    (List.map embed (List.map page_content (List.map document es)))
    (List.map document es) = es.
Proof.
  induction 1 as [|[v d] es Hv _ IH]; simpl in *; [done|].
  by rewrite IH, <- Hv.
Qed.

Lemma zip_with_reembedded (docs : list Document) :
  List.map document
    (zip_with mkEntry (List.map embed (List.map page_content docs)) docs)
  = docs.
Proof. induction docs as [|d docs IH]; simpl; [done|]. by rewrite IH. Qed.

Lemma zip_with_reembedded_app (docs1 docs2 : list Document) :
  zip_with mkEntry
    (List.map embed (List.map page_content (docs1 ++ docs2))) (docs1 ++ docs2) =
  zip_with mkEntry (List.map embed (List.map page_content docs1)) docs1 ++
  zip_with mkEntry (List.map embed (List.map page_content docs2)) docs2.
Proof. induction docs1 as [|d docs1 IH]; simpl; [done|]. by rewrite IH. Qed.

Lemma exec_add_documents (index : FAISS) (docs : list Document) (w : world) :
  exec (add_documents index docs) w =
  (Ok {| entries :=
           entries index ++
           zip_with mkEntry (List.map embed (List.map page_content docs)) docs |},
   log (CallEmbedDocuments (List.map page_content docs)) w).
Proof. done. Qed.

Lemma embedded_add_documents (index : FAISS) (docs : list Document) :
  embedded index →
  embedded {| entries :=
                entries index ++
                zip_with mkEntry (List.map embed (List.map page_content docs))
                         docs |}.
Proof.
  unfold embedded. cbn [entries]. intros Hindex.
  apply Forall_app. split; [done|].
  induction docs as [|d docs IH]; simpl; by constructor.
Qed.

(** C2: merging a new fragment (an index whose entries hold the embeddings
    of their texts) into an existing index returns the existing entries,
    each one as it was and at its place, followed by the entries of the
    fragment, and nothing else; the one call to the embedding service that
    the merge makes is for the texts of the fragment; without an existing
    index, the merge returns the fragment itself and calls no service. *)
Theorem merge_vectorstores_union (existing new : FAISS) (w : world) :
  embedded new →
  ∃ merged,
    exec (merge_vectorstores (Some existing) new) w =
      (Ok merged,
       log (CallEmbedDocuments
              (List.map page_content (docstore_values new))) w) ∧
    entries merged = entries existing ++ entries new ∧
    (∀ e, e ∈ entries merged ↔ e ∈ entries existing ∨ e ∈ entries new) ∧
    (∀ (i : nat) e,
       entries existing !! i = Some e → entries merged !! i = Some e) ∧
    exec (merge_vectorstores None new) w = (Ok new, w).
Proof.
  intros Hnew. eexists. split; [apply exec_add_documents|].
  cbn [entries]. unfold docstore_values.
  rewrite zip_with_embedded by done.
  split; [done|]. split; [|split; [|done]].
  - intros e. apply elem_of_app.
  - intros i e Hi. by apply lookup_app_l_Some.
Qed.

(** C6: for all fragments A, B and C, merging B into A and then C into the
    result gives the same entries, in the same order even, as merging C into
    B and the result into A; and when A and B hold the embeddings of their
    texts (as every fragment built by [create_embeddings] does), merging B
    into A gives the same entries, up to their order, as merging A into B:
    the entries of both. *)
Theorem merge_vectorstores_assoc_comm (A B C : FAISS) (w : world) :
  (∃ AB_C A_BC w1 w2,
     exec (AB ← merge_vectorstores (Some A) B;
           merge_vectorstores (Some AB) C) w = (Ok AB_C, w1) ∧
     exec (BC ← merge_vectorstores (Some B) C;
           merge_vectorstores (Some A) BC) w = (Ok A_BC, w2) ∧
     entries AB_C = entries A_BC ∧
     entries AB_C ≡ₚ entries A_BC) ∧
  (embedded A → embedded B →
   ∃ AB BA w3 w4,
     exec (merge_vectorstores (Some A) B) w = (Ok AB, w3) ∧
     exec (merge_vectorstores (Some B) A) w = (Ok BA, w4) ∧
     entries AB ≡ₚ entries BA ∧
     entries AB = entries A ++ entries B).
Proof.
  split.
  - rewrite !exec_bind. cbn [merge_vectorstores].
    rewrite !exec_add_documents. do 4 eexists.
    repeat (split; [reflexivity|]).
    cbn [entries]. unfold docstore_values. cbn [entries].
    rewrite List.map_app, zip_with_reembedded_app, zip_with_reembedded.
    rewrite <- app_assoc. done.
  - unfold embedded. intros HA HB. cbn [merge_vectorstores].
    rewrite !exec_add_documents. do 4 eexists.
    repeat (split; [reflexivity|]).
    cbn [entries]. unfold docstore_values.
    rewrite (zip_with_embedded (entries A)), (zip_with_embedded (entries B))
      by done.
    split; [apply Permutation_app_comm|done].
Qed.

End Merge.

Section Crash.
Context {emb : Embeddings} {met : Metric} {pkl : Pickle} {llm : LLM} {cfg : Settings}.


Lemma perform_read_only {X} (i : instr X) (w : world) :
  writes i = false → fs (perform i w).2 = fs w.
Proof. destruct i; try done. simpl. by destruct (fs w !! path). Qed.

Lemma read_only_crash {A} (n : nat) (p : prog A) (w : world) :
  read_only p → fs (crash_after n p w) = fs w.
Proof.
  revert n w. induction p as [a|e|X i k IH]; intros n w Hp;
    [by destruct n..|].
  destruct Hp as [Hi Hk]. destruct n as [|n]; [done|]. simpl.
  pose proof (perform_read_only i w Hi) as Hw.
  destruct (perform i w) as [[x|e] w']; [|done].
  rewrite IH by done. done.
Qed.

Lemma read_only_exec {A} (p : prog A) (w : world) :
  read_only p → fs (exec p w).2 = fs w.
Proof.
  intros Hp. rewrite <- (crash_after_all (steps p w)) by done.
  by apply read_only_crash.
Qed.

Lemma read_only_bind {A B} (p : prog A) (f : A → prog B) :
  read_only p → (∀ a, read_only (f a)) → read_only (p ≫= f).
Proof.
  intros Hp Hf. induction p as [a|e|X i k IH]; [apply Hf|done|].
  destruct Hp as [Hi Hk]. split; [done|]. intros x. by apply IH.
Qed.

Lemma read_only_embed_load_merge (chunks : list Chunk) (file_id project_id : Z) :
  read_only (embed_load_merge chunks file_id project_id).
Proof.
  unfold embed_load_merge. apply read_only_bind.
  { split; [done|]. by intros []. }
  intros new. apply read_only_bind.
  { split; [done|]. intros []; [|done].
    split; [done|]. intros data. simpl. by destruct (pickle_loads data). }
  intros [existing|]; [|done]. split; [done|]. done.
Qed.

Lemma set_fs_id (w : world) : set_fs (fs w) w = w.
Proof. by destruct w. Qed.

Lemma crash_write (n : nat) (path : string) (data cur : bytes) (w : world) :
  fs w !! path = Some cur →
  fs (crash_after n (write path data) w) = <[path := cur ++ take n data]> (fs w).
Proof.
  revert n cur w. induction data as [|b data IH]; intros n cur w Hcur.
  - rewrite take_nil, app_nil_r, insert_id by done. by destruct n.
  - destruct n as [|n].
    + simpl. by rewrite app_nil_r, insert_id.
    + change (crash_after (S n) (write path (b :: data)) w)
        with (crash_after n (write path data)
                (set_fs (<[path := default [] (fs w !! path) ++ [b]]> (fs w)) w)).
      rewrite Hcur. cbn [default].
      rewrite (IH n (cur ++ [b])) by apply lookup_insert_eq.
      cbn [fs set_fs]. rewrite insert_insert_eq, <- app_assoc. done.
Qed.

Lemma steps_write (path : string) (data : bytes) (w : world) :
  steps (write path data) w = length data.
Proof.
  revert w. induction data as [|b data IH]; intros w; [done|].
  change (steps (write path (b :: data)) w)
    with (S (steps (write path data)
                (set_fs (<[path := default [] (fs w !! path) ++ [b]]> (fs w)) w))).
  by rewrite IH.
Qed.

Lemma crash_save (n : nat) (vectorstore : FAISS) (project_id : Z) (w : world) :
  fs (crash_after (S n) (save_vectorstore vectorstore project_id) w) =
  <[index_path project_id := take n (pickle_dumps vectorstore)]> (fs w).
Proof.
  change (crash_after (S n) (save_vectorstore vectorstore project_id) w)
    with (crash_after n (write (index_path project_id) (pickle_dumps vectorstore))
            (set_fs (<[index_path project_id := []]> (fs w)) w)).
  rewrite (crash_write _ _ _ []) by apply lookup_insert_eq.
  cbn [fs set_fs]. by rewrite insert_insert_eq.
Qed.

Lemma steps_save (vectorstore : FAISS) (project_id : Z) (w : world) :
  steps (save_vectorstore vectorstore project_id) w =
  S (length (pickle_dumps vectorstore)).
Proof.
  change (steps (save_vectorstore vectorstore project_id) w)
    with (S (steps (write (index_path project_id) (pickle_dumps vectorstore))
               (set_fs (<[index_path project_id := []]> (fs w)) w))).
  by rewrite steps_write.
Qed.

Lemma exec_save (vectorstore : FAISS) (project_id : Z) (w : world) :
  exec (save_vectorstore vectorstore project_id) w =
  (Ok tt,
   set_fs (<[index_path project_id := pickle_dumps vectorstore]> (fs w)) w).
Proof.
  assert (∀ path data cur w', fs w' !! path = Some cur →
            exec (write path data) w' =
            (Ok tt, set_fs (<[path := cur ++ data]> (fs w')) w')) as Hwrite.
  { intros path data. induction data as [|b data IH]; intros cur w' Hcur.
    - simpl. by rewrite app_nil_r, insert_id, set_fs_id.
    - change (exec (write path (b :: data)) w')
        with (exec (write path data)
                (set_fs (<[path := default [] (fs w' !! path) ++ [b]]> (fs w')) w')).
      rewrite Hcur. cbn [default].
      rewrite (IH (cur ++ [b])) by apply lookup_insert_eq.
      unfold set_fs. cbn [fs calls qa_chain].
      by rewrite insert_insert_eq, <- app_assoc. }
  change (exec (save_vectorstore vectorstore project_id) w)
    with (exec (write (index_path project_id) (pickle_dumps vectorstore))
            (set_fs (<[index_path project_id := []]> (fs w)) w)).
  rewrite (Hwrite _ _ []) by apply lookup_insert_eq.
  unfold set_fs. cbn [fs calls qa_chain]. by rewrite insert_insert_eq.
Qed.

End Crash.

Section CrashSafety.
Context {emb : Embeddings} {met : Metric} {pkl : Pickle} {llm : LLM} {cfg : Settings}.

Lemma crash_after_bind_ext {A B} (n : nat) (p : prog A) (f g : A → prog B)
    (w : world) :
  (∀ a m w', crash_after m (f a) w' = crash_after m (g a) w') →
  crash_after n (p ≫= f) w = crash_after n (p ≫= g) w.
Proof.
  intros Hfg. rewrite !crash_after_bind.
  destruct (exec p w) as [[a|e] w']; [|done]. by case_decide.
Qed.

Lemma crash_after_bind_assoc {A B C} (n : nat) (p : prog A) (f : A → prog B)
    (g : B → prog C) (w : world) :
  crash_after n ((p ≫= f) ≫= g) w = crash_after n (p ≫= (λ a, f a ≫= g)) w.
Proof.
  revert n w. induction p as [a|e|X i k IH]; intros n w; [done..|].
  destruct n as [|n]; [done|].
  change (crash_after (S n) ((Do i k ≫= f) ≫= g) w)
    with (match perform i w with
          | (Ok x, w') => crash_after n ((k x ≫= f) ≫= g) w'
          | (Raised e, w') => w'
          end).
  change (crash_after (S n) (Do i k ≫= (λ a, f a ≫= g)) w)
    with (match perform i w with
          | (Ok x, w') => crash_after n (k x ≫= (λ a, f a ≫= g)) w'
          | (Raised e, w') => w'
          end).
  destruct (perform i w) as [[x|e] w']; [apply IH|done].
Qed.

Lemma exec_bind_assoc {A B C} (p : prog A) (f : A → prog B) (g : B → prog C)
    (w : world) :
  exec ((p ≫= f) ≫= g) w = exec (p ≫= (λ a, f a ≫= g)) w.
Proof.
  rewrite !exec_bind. destruct (exec p w) as [[a|e] w']; [|done].
  by rewrite exec_bind.
Qed.


Lemma crash_add_documents_to_project (n : nat) (chunks : list Chunk)
    (file_id project_id : Z) (w : world) :
  crash_after n (add_documents_to_project chunks file_id project_id) w =
  crash_after n (merged ← embed_load_merge chunks file_id project_id;
                 save_and_setup merged project_id) w.
Proof.
  unfold embed_load_merge. rewrite crash_after_bind_assoc.
  apply crash_after_bind_ext. intros new m w'.
  by rewrite crash_after_bind_assoc.
Qed.

Lemma exec_add_documents_to_project (chunks : list Chunk)
    (file_id project_id : Z) (w : world) :
  exec (add_documents_to_project chunks file_id project_id) w =
  exec (merged ← embed_load_merge chunks file_id project_id;
        save_and_setup merged project_id) w.
Proof.
  unfold embed_load_merge, add_documents_to_project.
  rewrite exec_bind_assoc, !exec_bind.
  destruct (exec (create_embeddings chunks file_id) w) as [[new|e] w']; [|done].
  by rewrite exec_bind_assoc.
Qed.

Lemma exec_save_and_setup (merged : FAISS) (project_id : Z) (w : world) :
  exec (save_and_setup merged project_id) w =
  (Ok merged,
   {| fs := <[index_path project_id := pickle_dumps merged]> (fs w);
      calls := calls w; qa_chain := Some merged |}).
Proof.
  unfold save_and_setup. by rewrite exec_bind, exec_save.
Qed.

Lemma crash_save_and_setup (n : nat) (merged : FAISS) (project_id : Z)
    (w : world) :
  fs (crash_after (S n) (save_and_setup merged project_id) w) =
  <[index_path project_id := take n (pickle_dumps merged)]> (fs w).
Proof.
  unfold save_and_setup. rewrite crash_after_bind, exec_save, steps_save.
  case_decide; [apply crash_save|].
  rewrite read_only_crash by (by split).
  cbn [fs set_fs]. by rewrite take_ge by lia.
Qed.

End CrashSafety.

(** C7, as the code has it: while [add_documents_to_project] embeds the new
    fragment, loads the existing index and merges, the files are as they
    were, so a crash then loses the new fragment only. The save itself is
    not atomic: opening the project's file empties it, and the bytes of the
    merged index are then written into it, so a crash during the save leaves
    in that file a prefix of the new bytes (an empty file, right after the
    open) and no longer the prior index; the files of other projects are
    never touched. A run that is not interrupted leaves the whole of the
    merged index in the file. *)
Theorem add_documents_to_project_crash {emb : Embeddings}
    {pkl : Pickle} {llm : LLM} {cfg : Settings} (chunks : list Chunk)
    (file_id project_id : Z) (w : world) (n : nat) :
  let crashed :=
    crash_after n (add_documents_to_project chunks file_id project_id) w in
  let before_save := steps (embed_load_merge chunks file_id project_id) w in
  match exec (embed_load_merge chunks file_id project_id) w with
  | (Ok merged, _) =>
      fs crashed =
        (if decide (n ≤ before_save)%nat then fs w
         else <[index_path project_id :=
                  take (n - before_save - 1) (pickle_dumps merged)]> (fs w)) ∧
      ∃ w', exec (add_documents_to_project chunks file_id project_id) w
              = (Ok merged, w') ∧
            fs w' = <[index_path project_id := pickle_dumps merged]> (fs w)
  | (Raised e, _) =>
      fs crashed = fs w ∧
      ∃ w', exec (add_documents_to_project chunks file_id project_id) w
              = (Raised e, w') ∧
            fs w' = fs w
  end.
Proof.
  intros crashed before_save. unfold crashed.
  rewrite crash_add_documents_to_project, exec_add_documents_to_project.
  rewrite crash_after_bind, exec_bind.
  pose proof (read_only_exec (embed_load_merge chunks file_id project_id) w
                (read_only_embed_load_merge _ _ _)) as Hfs.
  pose proof (read_only_crash n (embed_load_merge chunks file_id project_id) w
                (read_only_embed_load_merge _ _ _)) as Hcrash.
  destruct (exec (embed_load_merge chunks file_id project_id) w)
    as [[merged|e] w1]; simpl in Hfs.
  - split.
    + fold before_save. case_decide; [done|].
      replace (n - before_save)%nat with (S (n - before_save - 1)) at 1 by lia.
      by rewrite crash_save_and_setup, Hfs.
    + rewrite exec_save_and_setup. eexists. split; [done|].
      cbn [fs]. by rewrite Hfs.
  - split; [done|]. eauto.
Qed.

Lemma example_pickle_roundtrip (index : @FAISS example_embeddings) :
  @pickle_loads _ example_pickle (@pickle_dumps _ example_pickle index) = Ok index.
Proof.
  assert (∀ p, of_digits (digits p) = Some p) as Hdigits.
  { induction p as [p IH|p IH|]; simpl; by rewrite ?IH. }
  simpl. rewrite Hdigits. simpl. rewrite decode_encode. by destruct index.
Qed.

(** C7 fails as stated: project 1 has an index on file; when the process
    dies after the fifth action of [add_documents_to_project] (the open of
    the file for writing), the file is empty: it holds neither the prior
    index nor the new one. *)
Lemma add_documents_to_project_crash_truncates :
  ¬ prior_index_kept_until_saved (emb := example_embeddings)
      (pkl := example_pickle) (llm := example_llm) (cfg := example_settings)
      example_chunks 7 1 example_world.
Proof.
  intros Hclaim. specialize (Hclaim 5%nat).
  destruct Hclaim as [Hsame|(merged & w' & _ & Hnew)].
  - vm_compute in Hsame. discriminate.
  - vm_compute in Hnew. discriminate.
Qed.


Section Indexing.
Context {emb : Embeddings} {met : Metric} {pkl : Pickle} {llm : LLM} {cfg : Settings}.

Lemma exec_get_project_stats_present (project_id : Z) (w : world)
    (data : bytes) (index : FAISS) :
  fs w !! index_path project_id = Some data →
  pickle_loads data = Ok index →
  exec (get_project_stats project_id) w =
  (Ok {| total_documents := Z.of_nat (size (file_id_set index));
         total_chunks := len (entries index);
         file_ids := elements (file_id_set index) |}, w).
Proof.
  intros Hdata Hload. unfold get_project_stats.
  rewrite exec_bind, (exec_load_present _ _ data), Hload by done.
  rewrite foldl_stats_body, union_empty_l_L. cbn [exec].
  do 3 f_equal. unfold docstore_values, len. rewrite length_map. lia.
Qed.

Lemma build_embedded (chunks : list Chunk) (file_id : Z) :
  embedded (build chunks file_id).
Proof.
  unfold embedded, build. cbn [entries].
  induction chunks as [|c chunks IH]; simpl; by constructor.
Qed.

Lemma exec_create_embeddings (chunks : list Chunk) (file_id : Z) (w : world) :
  chunks ≠ [] →
  exec (create_embeddings chunks file_id) w =
  (Ok (build chunks file_id),
   log (CallEmbedDocuments (List.map text chunks)) w).
Proof.
  intros Hne. unfold create_embeddings, from_texts.
  rewrite exec_bind, exec_act. cbn [perform].
  destruct chunks as [|c chunks]; [done|]. cbn [List.map exec].
  do 2 f_equal. unfold build. f_equal.
  cbn [zip_with List.map]. f_equal.
  induction chunks as [|c' chunks IH]; [done|].
  cbn [zip_with List.map]. by rewrite IH.
Qed.

(** Without any chunk the embedding of the new fragment fails, before any
    file is read or written. *)
Lemma exec_create_embeddings_no_chunk (file_id : Z) (w : world) :
  exec (create_embeddings [] file_id) w =
  (Raised IndexError, log (CallEmbedDocuments []) w).
Proof. done. Qed.

Lemma exec_embed_load_merge_absent (chunks : list Chunk)
    (file_id project_id : Z) (w : world) :
  chunks ≠ [] → fs w !! index_path project_id = None →
  exec (embed_load_merge chunks file_id project_id) w =
  (Ok (build chunks file_id),
   log (CallEmbedDocuments (List.map text chunks)) w).
Proof.
  intros Hne Habsent. unfold embed_load_merge.
  rewrite exec_bind, exec_create_embeddings by done.
  rewrite exec_bind, exec_load_absent by done. done.
Qed.

Lemma exec_embed_load_merge_present (chunks : list Chunk)
    (file_id project_id : Z) (w : world) (data : bytes) (existing : FAISS) :
  chunks ≠ [] → fs w !! index_path project_id = Some data →
  pickle_loads data = Ok existing →
  exec (embed_load_merge chunks file_id project_id) w =
  (Ok {| entries := entries existing ++ entries (build chunks file_id) |},
   log (CallEmbedDocuments (List.map text chunks))
       (log (CallEmbedDocuments (List.map text chunks)) w)).
Proof.
  intros Hne Hdata Hload. unfold embed_load_merge.
  rewrite exec_bind, exec_create_embeddings by done.
  rewrite exec_bind, (exec_load_present _ _ data), Hload by done.
  cbn [merge_vectorstores]. rewrite exec_add_documents.
  unfold docstore_values.
  rewrite zip_with_embedded by apply build_embedded.
  do 3 f_equal. unfold build. cbn [entries].
  rewrite !List.map_map. done.
Qed.

(** Indexing a file into a project without an index: the index on file
    afterwards is the fragment built from the chunks of the file. *)
Lemma add_documents_to_project_first (chunks : list Chunk)
    (file_id project_id : Z) (w : world) :
  chunks ≠ [] → fs w !! index_path project_id = None →
  ∃ w', exec (add_documents_to_project chunks file_id project_id) w
          = (Ok (build chunks file_id), w') ∧
        fs w' = <[index_path project_id :=
                    pickle_dumps (build chunks file_id)]> (fs w).
Proof.
  intros Hne Habsent.
  rewrite exec_add_documents_to_project, exec_bind.
  rewrite exec_embed_load_merge_absent by done.
  rewrite exec_save_and_setup. eauto.
Qed.

(** Indexing a file into a project with an index: the index on file
    afterwards holds the entries it held before, followed by the fragment
    built from the chunks of the file. *)
Lemma add_documents_to_project_next (chunks : list Chunk)
    (file_id project_id : Z) (w : world) (data : bytes) (existing : FAISS) :
  chunks ≠ [] → fs w !! index_path project_id = Some data →
  pickle_loads data = Ok existing →
  let merged :=
    {| entries := entries existing ++ entries (build chunks file_id) |} in
  ∃ w', exec (add_documents_to_project chunks file_id project_id) w
          = (Ok merged, w') ∧
        fs w' = <[index_path project_id := pickle_dumps merged]> (fs w).
Proof.
  intros Hne Hdata Hload merged.
  rewrite exec_add_documents_to_project, exec_bind.
  rewrite (exec_embed_load_merge_present _ _ _ _ data existing) by done.
  rewrite exec_save_and_setup. eauto.
Qed.

(** Two different files indexed one after the other into a project without
    an index, with a pickle that reads back what it wrote: the statistics
    count two documents and the chunks of both. *)
Lemma two_files_total_documents (chunks1 chunks2 : list Chunk)
    (file_id1 file_id2 project_id : Z) (w : world) :
  (∀ index, pickle_loads (pickle_dumps index) = Ok index) →
  fs w !! index_path project_id = None →
  chunks1 ≠ [] → chunks2 ≠ [] → file_id1 ≠ file_id2 →
  ∃ stats w',
    exec (_ ← add_documents_to_project chunks1 file_id1 project_id;
          _ ← add_documents_to_project chunks2 file_id2 project_id;
          get_project_stats project_id) w = (Ok stats, w') ∧
    total_documents stats = 2 ∧
    total_chunks stats = len chunks1 + len chunks2 ∧
    list_to_set (file_ids stats) = ({[ file_id1; file_id2 ]} : gset Z).
Proof.
  intros Hpickle Habsent Hne1 Hne2 Hfiles.
  destruct (add_documents_to_project_first chunks1 file_id1 project_id w)
    as (w1 & Hrun1 & Hfs1); [done..|].
  destruct (add_documents_to_project_next chunks2 file_id2 project_id w1
              (pickle_dumps (build chunks1 file_id1)) (build chunks1 file_id1))
    as (w2 & Hrun2 & Hfs2); [done| by rewrite Hfs1, lookup_insert_eq |done|].
  set (merged := {| entries := entries (build chunks1 file_id1) ++
                               entries (build chunks2 file_id2) |}) in *.
  pose proof (exec_get_project_stats_present project_id w2
                (pickle_dumps merged) merged) as Hrun3.
  rewrite Hfs2, lookup_insert_eq in Hrun3.
  specialize (Hrun3 eq_refl (Hpickle merged)).
  rewrite exec_bind, Hrun1, exec_bind, Hrun2, Hrun3.
  eexists _, w2. split; [done|].
  cbn [total_documents total_chunks file_ids].
  assert (file_id_set merged = {[ file_id1; file_id2 ]}) as Hset.
  { apply set_eq. intros f. unfold file_id_set, docstore_values, merged.
    cbn [entries build]. rewrite elem_of_list_to_set, list_elem_of_omap.
    rewrite elem_of_union, !elem_of_singleton.
    change (map ?g ?l) with (g <$> l).
    setoid_rewrite list_elem_of_fmap. setoid_rewrite elem_of_app.
    setoid_rewrite list_elem_of_fmap. split.
    - intros (doc & (e & -> & [(c & -> & Hc)|(c & -> & Hc)]) & Hf);
        cbn in Hf; unfold chunk_metadata in Hf;
        rewrite lookup_insert_eq in Hf; injection Hf as <-; auto.
    - destruct chunks1 as [|c1 ?]; [done|]. destruct chunks2 as [|c2 ?]; [done|].
      intros [->| ->].
      + eexists. split; [eexists; split; [done|left; exists c1; split; [done|left]]|].
        cbn. unfold chunk_metadata. by rewrite lookup_insert_eq.
      + eexists. split; [eexists; split; [done|right; exists c2; split; [done|left]]|].
        cbn. unfold chunk_metadata. by rewrite lookup_insert_eq. }
  split; [|split].
  - rewrite Hset, size_union, !size_singleton by set_solver. done.
  - unfold merged, build, len. cbn [entries].
    rewrite length_app, !length_map. lia.
  - by rewrite list_to_set_elements_L.
Qed.

End Indexing.

(** ** The theorems at work on the example instance *)

Lemma query_without_index_witness :
  exec (emb := example_embeddings) (llm := example_llm)
       (query (met := example_metric) (pkl := example_pickle)
              (cfg := example_settings) (lit "What is new?") 2)
       example_world =
  (Ok {| answer :=
           lit "No documents found in this project. Please upload some PDF files first.";
         sources := [] |}, example_world).
Proof.
  apply (query_without_index (emb := example_embeddings)
           (met := example_metric) (pkl := example_pickle)
           (cfg := example_settings) (llm := example_llm)
           (lit "What is new?") 2 example_world).
  vm_compute. reflexivity.
Defined.

Lemma get_project_stats_counts_witness :
  ∃ stats,
    exec (emb := example_embeddings) (llm := example_llm)
         (get_project_stats (pkl := example_pickle) (cfg := example_settings) 1)
         example_world = (Ok stats, example_world) ∧
    total_chunks stats = 1 ∧ total_documents stats = 1 ∧
    list_to_set (file_ids stats) = ({[ 3 ]} : gset Z).
Proof.
  destruct (proj2 (get_project_stats_counts (emb := example_embeddings)
                     (pkl := example_pickle) (cfg := example_settings)
                     (llm := example_llm) 1 example_world)
              (pickle_dumps (Pickle := example_pickle) example_index)
              example_index)
    as (stats & Hrun & Hchunks & Hdocs & _ & Hids & _).
  - vm_compute. reflexivity.
  - vm_compute. reflexivity.
  - exists stats. split; [exact Hrun|]. split; [exact Hchunks|].
    split; [exact Hdocs|]. exact Hids.
Defined.

Lemma query_sources_from_index_witness :
  ∃ a w',
    exec (emb := example_embeddings) (llm := example_llm)
         (query (met := example_metric) (pkl := example_pickle)
                (cfg := example_settings) (lit "What is new?") 3)
         library_world = (Ok a, w') ∧
    length (sources a) = 5%nat ∧
    List.map content (sources a) =
      [ lit "lambda mu nu"; lit "beta gamma"; lit "theta iota kappa";
        lit "delta epsilon zeta"; lit "alpha" ] ∧
    List.map page (sources a) = [inl 2; inl 1; inl 2; inl 1; inl 1].
Proof.
  destruct (query_sources_from_index (emb := example_embeddings)
              (met := example_metric) (pkl := example_pickle)
              (cfg := example_settings) example_llm other_llm
              (lit "What is new?") 3 library_world
              (pickle_dumps (Pickle := example_pickle) library_index)
              library_index)
    as (a1 & a2 & w1 & w2 & Hrun & _ & _ & _ & _ & Hsources & Hlength).
  - apply lookup_singleton_eq.
  - apply example_pickle_roundtrip.
  - exists a1, w1. split; [exact Hrun|]. split; [exact Hlength|].
    rewrite Hsources. split; vm_compute; reflexivity.
Defined.

Lemma merge_vectorstores_union_witness :
  ∃ merged w',
    exec (emb := example_embeddings) (llm := example_llm)
         (merge_vectorstores (Some example_index) other_index)
         example_world = (Ok merged, w') ∧
    entries merged = entries example_index ++ entries other_index.
Proof.
  destruct (merge_vectorstores_union (emb := example_embeddings)
              (llm := example_llm) example_index other_index example_world)
    as (merged & Hrun & Hentries & _).
  - repeat constructor.
  - exists merged. eexists. split; [exact Hrun|exact Hentries].
Defined.

Lemma merge_vectorstores_assoc_comm_witness :
  ∃ AB BA w1 w2,
    exec (emb := example_embeddings) (llm := example_llm)
         (merge_vectorstores (Some example_index) other_index)
         example_world = (Ok AB, w1) ∧
    exec (emb := example_embeddings) (llm := example_llm)
         (merge_vectorstores (Some other_index) example_index)
         example_world = (Ok BA, w2) ∧
    entries AB ≡ₚ entries BA.
Proof.
  destruct (proj2 (merge_vectorstores_assoc_comm (emb := example_embeddings)
                     (llm := example_llm) example_index other_index
                     example_index example_world))
    as (AB & BA & w3 & w4 & HAB & HBA & Hcomm & _).
  - repeat constructor.
  - repeat constructor.
  - exists AB, BA, w3, w4. split; [exact HAB|]. split; [exact HBA|exact Hcomm].
Defined.

(** * Further properties of the pipeline *)

Section Paths.
Context {cfg : Settings}.

Lemma list_ascii_of_string_app (s1 s2 : string) :
  list_ascii_of_string (s1 +:+ s2) =
  list_ascii_of_string s1 ++ list_ascii_of_string s2.
Proof. induction s1 as [|a s1 IH]; simpl; [done|]. by rewrite IH. Qed.

Lemma string_app_inj_r (s1 s2 t : string) : s1 +:+ t = s2 +:+ t → s1 = s2.
Proof.
  intros Heq. apply (f_equal list_ascii_of_string) in Heq.
  rewrite !list_ascii_of_string_app in Heq. apply app_inv_tail in Heq.
  apply (f_equal string_of_list_ascii) in Heq.
  by rewrite !string_of_list_ascii_of_string in Heq.
Qed.

Lemma os_path_join_inj (a b1 b2 : string) :
  os_path_join a b1 = os_path_join a b2 → b1 = b2.
Proof.
  unfold os_path_join. repeat case_decide; [done|..]; intros Heq.
  - by apply (inj (String.app a)) in Heq.
  - apply (inj (String.app a)) in Heq. by apply (inj (String.app "/")) in Heq.
Qed.

(** Two projects never share an index file. *)
Lemma index_path_inj (p q : Z) : index_path p = index_path q → p = q.
Proof.
  unfold index_path. intros Heq%os_path_join_inj.
  apply (inj (String.app "project_")) in Heq.
  apply string_app_inj_r in Heq. by apply (inj pretty) in Heq.
Qed.

End Paths.

Section Persistence.
Context {emb : Embeddings} {pkl : Pickle} {llm : LLM} {cfg : Settings}.

(** X1: Save, then load: the load returns the index that was saved, whatever the
    file held before, when the pickle of that index can be read back. *)
Theorem save_then_load (vectorstore : FAISS) (project_id : Z) (w : world) :
  pickle_loads (pickle_dumps vectorstore) = Ok vectorstore →
  exec (_ ← save_vectorstore vectorstore project_id;
        load_vectorstore project_id) w =
  (Ok (Some vectorstore),
   set_fs (<[index_path project_id := pickle_dumps vectorstore]> (fs w)) w).
Proof.
  intros Hpickle. rewrite exec_bind, exec_save.
  rewrite (exec_load_present _ _ (pickle_dumps vectorstore))
    by apply lookup_insert_eq.
  by rewrite Hpickle.
Qed.

(** X2: Saving the index of one project leaves the index of every other project
    as it was: its file is untouched, and loading it gives what it gave. *)
Theorem save_other_project (vectorstore : FAISS) (p q : Z) (w : world) :
  p ≠ q →
  fs (exec (save_vectorstore vectorstore p) w).2 !! index_path q
    = fs w !! index_path q ∧
  (exec (_ ← save_vectorstore vectorstore p; load_vectorstore q) w).1
    = (exec (load_vectorstore q) w).1.
Proof.
  intros Hpq. rewrite exec_bind, exec_save. cbn [snd fs set_fs].
  assert (index_path p ≠ index_path q) as Hpath
    by (intros Heq; by apply index_path_inj in Heq).
  rewrite lookup_insert_ne by done. split; [done|].
  destruct (fs w !! index_path q) as [data|] eqn:Hq.
  - rewrite !(exec_load_present _ _ data);
      [done | done | by cbn [fs set_fs]; rewrite lookup_insert_ne].
  - rewrite !exec_load_absent;
      [done | done | by cbn [fs set_fs]; rewrite lookup_insert_ne].
Qed.

End Persistence.

Section MorePipeline.
Context {emb : Embeddings} {met : Metric} {pkl : Pickle} {llm : LLM} {cfg : Settings}.

(** X3: [create_embeddings] on at least one chunk makes one call to the
    embedding service, for the texts of the chunks in order, touches no file,
    and returns one entry per chunk, in order: the entry of a chunk holds the
    embedding of its text, its text, and as metadata the file id and the index,
    page estimate and word count of the chunk. *)
Theorem create_embeddings_entries (chunks : list Chunk) (file_id : Z)
    (w : world) :
  chunks ≠ [] →
  ∃ new,
    exec (create_embeddings chunks file_id) w =
      (Ok new, {| fs := fs w;
                  calls := calls w ++ [CallEmbedDocuments (List.map text chunks)];
                  qa_chain := qa_chain w |}) ∧
    length (entries new) = length chunks ∧
    ∀ (i : nat) chunk, chunks !! i = Some chunk →
      ∃ e, entries new !! i = Some e ∧
        embedding e = embed (text chunk) ∧
        page_content (document e) = text chunk ∧
        metadata (document e) !! "file_id" = Some file_id ∧
        metadata (document e) !! "chunk_index" = Some (chunk_index chunk) ∧
        metadata (document e) !! "estimated_page"
          = Some (estimated_page chunk) ∧
        metadata (document e) !! "word_count" = Some (word_count chunk) ∧
        dom (metadata (document e))
          = ({[ "file_id"; "chunk_index"; "estimated_page"; "word_count" ]}
               : gset string).
Proof.
  intros Hne. exists (build chunks file_id).
  split; [by apply exec_create_embeddings|].
  unfold build. cbn [entries]. split; [by rewrite length_map|].
  intros i chunk Hi. eexists. split.
  { change (map ?f ?l) with (f <$> l). by rewrite list_lookup_fmap, Hi. }
  cbn. unfold chunk_metadata. repeat split; done.
Qed.

(** X4: An index file that cannot be unpickled: [query] and [get_project_stats]
    raise what the unpickling raises and leave the world as it was (no service
    is called), and indexing a file into the project raises it as well, after
    the embedding of the new chunks and without writing any file. *)
Theorem unreadable_index (question : str) (chunks : list Chunk)
    (file_id project_id : Z) (w : world) (data : bytes) (e : exn) :
  fs w !! index_path project_id = Some data →
  pickle_loads data = Raised e →
  exec (query question project_id) w = (Raised e, w) ∧
  exec (get_project_stats project_id) w = (Raised e, w) ∧
  (chunks ≠ [] →
   exec (add_documents_to_project chunks file_id project_id) w =
     (Raised e, log (CallEmbedDocuments (List.map text chunks)) w)).
Proof.
  intros Hdata Hload. split; [|split].
  - unfold query. by rewrite exec_bind, (exec_load_present _ _ data), Hload.
  - unfold get_project_stats.
    by rewrite exec_bind, (exec_load_present _ _ data), Hload.
  - intros Hne. unfold add_documents_to_project.
    rewrite exec_bind, exec_create_embeddings by done.
    by rewrite exec_bind, (exec_load_present _ _ data), Hload.
Qed.

Lemma read_only_load (project_id : Z) : read_only (load_vectorstore project_id).
Proof.
  split; [done|]. intros []; [|done].
  split; [done|]. intros data. simpl. by destruct (pickle_loads data).
Qed.

Lemma read_only_query (question : str) (project_id : Z) :
  read_only (query question project_id).
Proof.
  unfold query. apply read_only_bind; [apply read_only_load|].
  intros [index|]; [|done].
  split; [done|]. intros []. split; [done|]. intros [chain|]; [|done].
  split; [done|]. intros v. split; [done|]. done.
Qed.

(** X5: [query] and [get_project_stats] never write: whatever they return or
    raise, every file is as it was; and [get_project_stats] leaves the whole
    world as it was (it calls no service). *)
Theorem query_and_stats_read_only (question : str) (project_id : Z)
    (w : world) :
  fs (exec (query question project_id) w).2 = fs w ∧
  (exec (get_project_stats project_id) w).2 = w.
Proof.
  split; [apply read_only_exec, read_only_query|].
  unfold get_project_stats. rewrite exec_bind.
  destruct (fs w !! index_path project_id) as [data|] eqn:Hdata.
  - rewrite (exec_load_present _ _ data) by done.
    destruct (pickle_loads data) as [index|e]; [|done].
    by destruct (foldl stats_body (∅, 0) (docstore_values index)).
  - by rewrite exec_load_absent.
Qed.


End MorePipeline.

Section MoreIndexing.
Context {emb : Embeddings} {met : Metric} {pkl : Pickle} {llm : LLM} {cfg : Settings}.

Lemma exec_load_inv (project_id : Z) (w w' : world) (existing : option FAISS) :
  exec (load_vectorstore project_id) w = (Ok existing, w') →
  match existing with
  | Some index =>
      ∃ data, fs w !! index_path project_id = Some data ∧
              pickle_loads data = Ok index
  | None => fs w !! index_path project_id = None
  end.
Proof.
  destruct (fs w !! index_path project_id) as [data|] eqn:Hdata.
  - rewrite (exec_load_present _ _ data) by done.
    destruct (pickle_loads data) as [index|e] eqn:Hload; [|done].
    intros [= <- _]. eauto.
  - rewrite exec_load_absent by done. by intros [= <- _].
Qed.

Lemma exec_add_documents_to_project_loaded (chunks : list Chunk)
    (file_id project_id : Z) (w : world) (existing : option FAISS) :
  chunks ≠ [] →
  exec (load_vectorstore project_id) w = (Ok existing, w) →
  let texts := List.map text chunks in
  let merged :=
    {| entries := match existing with
                  | Some index => entries index
                  | None => []
                  end ++ entries (build chunks file_id) |} in
  exec (add_documents_to_project chunks file_id project_id) w =
  (Ok merged,
   {| fs := <[index_path project_id := pickle_dumps merged]> (fs w);
      calls := calls w ++ CallEmbedDocuments texts ::
                 match existing with
                 | Some _ => [CallEmbedDocuments texts]
                 | None => []
                 end;
      qa_chain := Some merged |}).
Proof.
  intros Hne Hload%exec_load_inv texts merged.
  rewrite exec_add_documents_to_project, exec_bind.
  destruct existing as [index|].
  - destruct Hload as (data & Hdata & Hload).
    rewrite (exec_embed_load_merge_present _ _ _ _ data index) by done.
    rewrite exec_save_and_setup. unfold log. cbn [fs calls qa_chain].
    by rewrite <- app_assoc.
  - rewrite exec_embed_load_merge_absent by done.
    rewrite exec_save_and_setup. unfold log. cbn [fs calls qa_chain].
    by destruct (build chunks file_id).
Qed.


End MoreIndexing.

Section MoreIndexingCalls.
Context {emb : Embeddings} {met : Metric} {pkl : Pickle} {llm : LLM} {cfg : Settings}.


(** X9: Indexing keeps the index well embedded: when every entry of the index on
    file holds the embedding of its own text (or there is no index), so does
    every entry of the index that [add_documents_to_project] returns, writes to
    the project's file and gives to the retriever. *)
Theorem indexing_keeps_embedded (chunks : list Chunk) (file_id project_id : Z)
    (w : world) (existing : option FAISS) :
  chunks ≠ [] →
  exec (load_vectorstore project_id) w = (Ok existing, w) →
  (∀ index, existing = Some index → embedded index) →
  ∃ merged w',
    exec (add_documents_to_project chunks file_id project_id) w
      = (Ok merged, w') ∧
    embedded merged ∧
    fs w' !! index_path project_id = Some (pickle_dumps merged) ∧
    qa_chain w' = Some merged.
Proof.
  intros Hne Hload Hexisting. do 2 eexists.
  split; [by apply exec_add_documents_to_project_loaded|].
  cbn [fs qa_chain]. split; [|split; [apply lookup_insert_eq|done]].
  unfold embedded. cbn [entries]. apply Forall_app. split.
  - destruct existing as [index|]; [by apply Hexisting|constructor].
  - apply build_embedded.
Qed.


End MoreIndexingCalls.

(** * Properties of the text extraction *)

Section Strip.

Lemma lstrip_nil (s : str) :
  lstrip s = [] ↔ Forall (λ c, isspace c = true) s.
Proof.
  induction s as [|c s IH]; simpl; [by split|].
  destruct (isspace c) eqn:Hc.
  - rewrite IH. split; [by constructor|by inversion 1].
  - split; [done|]. inversion 1; congruence.
Qed.

Lemma strip_nil (s : str) : strip s = [] ↔ Forall (λ c, isspace c = true) s.
Proof.
  unfold strip. split.
  - intros Hnil. apply (f_equal (@rev N)) in Hnil.
    rewrite rev_involutive in Hnil.
    simpl in Hnil. apply lstrip_nil in Hnil. apply Forall_rev in Hnil.
    rewrite rev_involutive in Hnil.
    destruct (lstrip s) as [|c t] eqn:Hs; [by apply lstrip_nil|].
    assert (isspace c = false) as Hc.
    { clear Hnil. induction s as [|c' s IH]; simpl in Hs; [done|].
      destruct (isspace c') eqn:Hc'; [auto|]. by injection Hs as <- _. }
    inversion Hnil; congruence.
  - intros Hs. apply lstrip_nil in Hs. by rewrite Hs.
Qed.

Lemma split_nil (s : str) : split s = [] ↔ Forall (λ c, isspace c = true) s.
Proof.
  split.
  - intros Hs. pose proof (split_concat s) as Hc. rewrite Hs in Hc.
    simpl in Hc. symmetry in Hc. apply Forall_forall. intros c Hin.
    destruct (isspace c) eqn:Hsp; [done|].
    assert (c ∈ filter (λ c, isspace c = false) s) as Hf
      by (by apply list_elem_of_filter).
    rewrite Hc in Hf. by apply not_elem_of_nil in Hf.
  - intros Hs. pose proof (split_concat s) as Hc.
    pose proof (split_words s) as Hw.
    destruct (split s) as [|w ws]; [done|].
    inversion Hw as [|? ? [Hne _] _]; subst.
    assert (filter (λ c, isspace c = false) s = []) as Hnil.
    { clear Hc Hw Hne. induction Hs as [|c s Hc _ IH]; [done|].
      rewrite filter_cons. destruct (decide (isspace c = false)); [congruence|done]. }
    rewrite Hnil in Hc. simpl in Hc. by apply app_eq_nil in Hc as [? _].
Qed.

(** [if text.strip():] holds when the text has a word. *)
Lemma truthy_strip (s : str) : truthy (strip s) = true ↔ split s ≠ [].
Proof.
  unfold truthy. rewrite bool_decide_eq_true.
  by rewrite strip_nil, split_nil.
Qed.

Lemma split_from_app_space (cur s t : str) (c : N) :
  isspace c = true →
  split_from cur (s ++ c :: t) = split_from cur s ++ split t.
Proof.
  intros Hc. revert cur. induction s as [|a s IH]; intros cur; simpl.
  - rewrite Hc. by case_decide.
  - destruct (isspace a); [|apply IH]. case_decide; by rewrite IH.
Qed.

Lemma pages_text_concat (pages : list str) :
  pages_text pages = concat (List.map (λ page, page ++ [10%N]) pages).
Proof.
  unfold pages_text.
  assert (∀ acc, foldl (λ text page, text ++ page ++ [10%N]) acc pages =
                 acc ++ concat (List.map (λ page, page ++ [10%N]) pages)) as H.
  { induction pages as [|p pages IH]; intros acc; simpl.
    - by rewrite app_nil_r.
    - by rewrite IH, <- !app_assoc. }
  apply H.
Qed.

Lemma split_pages_text (pages : list str) :
  split (pages_text pages) = concat (List.map split pages).
Proof.
  rewrite pages_text_concat.
  induction pages as [|p pages IH]; simpl; [done|].
  rewrite <- app_assoc. change ([10%N] ++ ?x) with (10%N :: x).
  unfold split at 1.
  rewrite split_from_app_space by done. by rewrite IH.
Qed.

End Strip.

Section ExtractionFacts.
Context {pdf : PdfReaders}.

Lemma pages_text_wordless (pages : list str) :
  split (pages_text pages) = [] ↔ Forall (λ page, split page = []) pages.
Proof.
  rewrite split_pages_text.
  induction pages as [|p pages IH]; simpl; [by split|].
  split.
  - intros [Hp Hps]%app_eq_nil. constructor; [done|by apply IH].
  - inversion 1 as [|? ? Hp Hps]; subst. rewrite Hp. by apply IH.
Qed.

Lemma extract_text_words (files : gmap string bytes) (file_path : string)
    (text : str) :
  extract_text files file_path = Returns text → split text ≠ [].
Proof.
  unfold extract_text.
  destruct (extract_text_pypdf2 files file_path) as [t1|e1];
    [destruct (truthy (strip t1)) eqn:H1;
       [intros [= <-]; by apply truthy_strip|]|];
    (destruct (extract_text_pymupdf files file_path) as [t2|e2]; [|done];
     destruct (truthy (strip t2)) eqn:H2; [|done];
     intros [= <-]; by apply truthy_strip).
Qed.

Lemma extract_text_raises (files : gmap string bytes) (file_path : string)
    (e : exception) :
  extract_text files file_path = Raises e →
  e = HTTPException 400 (lit "Failed to extract text from PDF").
Proof.
  unfold extract_text.
  destruct (extract_text_pypdf2 files file_path) as [t1|e1];
    [destruct (truthy (strip t1)); [done|]|];
    (destruct (extract_text_pymupdf files file_path) as [t2|e2];
       [destruct (truthy (strip t2)); [done|]|]; by intros [= <-]).
Qed.

(** X11: [extract_text] returns only a text that has at least one word, the text
    of one of the two readers; and whatever the readers raise, what it raises is
    the one [HTTPException] of status 400 with the detail "Failed to extract
    text from PDF". *)
Theorem extract_text_outcome (files : gmap string bytes) (file_path : string) :
  match extract_text files file_path with
  | Returns text =>
      split text ≠ [] ∧
      (extract_text_pypdf2 files file_path = Returns text ∨
       extract_text_pymupdf files file_path = Returns text)
  | Raises e => e = HTTPException 400 (lit "Failed to extract text from PDF")
  end.
Proof.
  unfold extract_text.
  destruct (extract_text_pypdf2 files file_path) as [t1|e1];
    [destruct (truthy (strip t1)) eqn:H1;
       [split; [by apply truthy_strip|by left]|]|];
    (destruct (extract_text_pymupdf files file_path) as [t2|e2]; [|done];
     destruct (truthy (strip t2)) eqn:H2; [|done];
     split; [by apply truthy_strip|by right]).
Qed.

(** X12: [extract_text] fails exactly when neither reader extracts a page with a
    word in it (each one raises, or gives pages of whitespace only, or no page
    at all). *)
Theorem extract_text_fails_iff (files : gmap string bytes) (file_path : string) :
  (∃ e, extract_text files file_path = Raises e) ↔
  (∀ pages, pypdf2_pages (files !! file_path) = inr pages →
            Forall (λ page, split page = []) pages) ∧
  (∀ pages, pymupdf_pages (files !! file_path) = inr pages →
            Forall (λ page, split page = []) pages).
Proof.
  assert (∀ pages, truthy (strip (pages_text pages)) = false ↔
                   Forall (λ page, split page = []) pages) as Hwordless.
  { intros pages. rewrite <- pages_text_wordless.
    pose proof (truthy_strip (pages_text pages)) as Ht.
    destruct (truthy (strip (pages_text pages))); split; intros H; try done.
    - exfalso. by apply (proj1 Ht).
    - destruct (decide (split (pages_text pages) = [])) as [|Hne]; [done|].
      by apply Ht in Hne. }
  unfold extract_text, extract_text_pypdf2, extract_text_pymupdf.
  destruct (pypdf2_pages (files !! file_path)) as [e1|pages1];
    destruct (pymupdf_pages (files !! file_path)) as [e2|pages2].
  - split; [|by eexists]. intros _. by split; intros pages [=].
  - destruct (truthy (strip (pages_text pages2))) eqn:H2.
    + split; [by intros [e He]|]. intros [_ Hw]. specialize (Hw _ eq_refl).
      apply Hwordless in Hw. congruence.
    + split; [|by eexists]. intros _. split; intros pages [= <-].
      by apply Hwordless.
  - destruct (truthy (strip (pages_text pages1))) eqn:H1.
    + split; [by intros [e He]|]. intros [Hw _]. specialize (Hw _ eq_refl).
      apply Hwordless in Hw. congruence.
    + split; [|by eexists]. intros _. split; intros pages [= <-].
      by apply Hwordless.
  - destruct (truthy (strip (pages_text pages1))) eqn:H1.
    { split; [by intros [e He]|]. intros [Hw _]. specialize (Hw _ eq_refl).
      apply Hwordless in Hw. congruence. }
    destruct (truthy (strip (pages_text pages2))) eqn:H2.
    + split; [by intros [e He]|]. intros [_ Hw]. specialize (Hw _ eq_refl).
      apply Hwordless in Hw. congruence.
    + split; [|by eexists]. intros _.
      split; intros pages [= <-]; by apply Hwordless.
Qed.

(** X13: When PyPDF2 extracts a page with a word in it, [extract_text] returns
    the text of PyPDF2, whatever PyMuPDF would do with the file: the texts of
    the pages, each followed by a newline; so the words of the text are the
    words of the pages, in order, and no word runs over two pages. *)
Theorem extract_text_pypdf2_first (files : gmap string bytes)
    (file_path : string) (pages : list str) :
  pypdf2_pages (files !! file_path) = inr pages →
  Exists (λ page, split page ≠ []) pages →
  extract_text files file_path =
    Returns (concat (List.map (λ page, page ++ [10%N]) pages)) ∧
  split (concat (List.map (λ page, page ++ [10%N]) pages)) =
    concat (List.map split pages).
Proof.
  intros Hpages Hword. rewrite <- pages_text_concat.
  split; [|apply split_pages_text].
  unfold extract_text, extract_text_pypdf2. rewrite Hpages.
  assert (split (pages_text pages) ≠ []) as Hne.
  { rewrite pages_text_wordless. intros Hall.
    apply Exists_exists in Hword as (page & Hin & Hpage).
    rewrite Forall_forall in Hall. by apply Hpage, Hall. }
  apply truthy_strip in Hne. by rewrite Hne.
Qed.

End ExtractionFacts.

Section ProcessPdf.
Context {pdf : PdfReaders}.

(** X14: With a positive chunk size above the overlap, [process_pdf] raises
    nothing but the [HTTPException] of a failed extraction, and what it returns
    has at least one word and at least one chunk: the chunks of the extracted
    text, as many as there are window starts in its words ([total_words] divided
    by the step, rounded up). *)
Theorem process_pdf_chunks (self : PDFProcessor) (files : gmap string bytes)
    (file_path : string) :
  0 < chunk_size self → chunk_overlap self < chunk_size self →
  match process_pdf self files file_path with
  | Returns r =>
      extract_text files file_path = Returns (ProcessedPDF.full_text r) ∧
      chunk_text self (ProcessedPDF.full_text r) = Ok (ProcessedPDF.chunks r) ∧
      ProcessedPDF.total_words r = len (split (ProcessedPDF.full_text r)) ∧
      1 ≤ ProcessedPDF.total_words r ∧
      ProcessedPDF.total_chunks r = len (ProcessedPDF.chunks r) ∧
      1 ≤ ProcessedPDF.total_chunks r ∧
      ProcessedPDF.total_chunks r =
        (ProcessedPDF.total_words r + (chunk_size self - chunk_overlap self) - 1)
        / (chunk_size self - chunk_overlap self)
  | Raises e => e = HTTPException 400 (lit "Failed to extract text from PDF")
  end.
Proof.
  intros Hsize Hstep. unfold process_pdf.
  destruct (extract_text files file_path) as [text|e] eqn:Htext;
    [|by apply (extract_text_raises files file_path)].
  pose proof (extract_text_words _ _ _ Htext) as Hword.
  unfold mbind, outcome_bind.
  rewrite chunk_text_windows by done.
  cbn [ProcessedPDF.full_text ProcessedPDF.chunks ProcessedPDF.total_chunks
       ProcessedPDF.total_words].
  assert (1 ≤ len (split text)) as Hwords
    by (unfold len; destruct (split text); [done|simpl; lia]).
  assert (len (sliding_window_chunks (chunk_size self) (chunk_overlap self) text)
          = (len (split text) + (chunk_size self - chunk_overlap self) - 1)
            / (chunk_size self - chunk_overlap self)) as Hcount.
  { unfold sliding_window_chunks, len, window_count.
    rewrite length_map, length_seq, Z2Nat.id; [done|].
    apply Z.div_pos; unfold len in *; lia. }
  split; [done|]. split; [by apply chunk_text_windows|].
  split; [done|]. split; [done|]. split; [done|]. split; [|done].
  rewrite Hcount.
  pose proof (window_count_lt (len (split text))
                (chunk_size self - chunk_overlap self) 0) as Hlt.
  unfold window_count in Hlt.
  assert (0 ≤ (len (split text) + (chunk_size self - chunk_overlap self) - 1)
              / (chunk_size self - chunk_overlap self))
    by (apply Z.div_pos; lia).
  assert (0 < Z.to_nat ((len (split text) + (chunk_size self - chunk_overlap self) - 1)
              / (chunk_size self - chunk_overlap self)))%nat
    by (apply Hlt; lia).
  lia.
Qed.

(** X15: With an overlap that is not below the chunk size, [process_pdf] does
    not reject the sizes: when the two are equal it raises [ValueError] (after
    the extraction), and when the overlap is larger it returns the extracted
    text, which has words, with no chunk at all. *)
Theorem process_pdf_overlap_not_below_size (self : PDFProcessor)
    (files : gmap string bytes) (file_path : string) (text : str) :
  chunk_size self ≤ chunk_overlap self →
  extract_text files file_path = Returns text →
  process_pdf self files file_path =
    (if decide (chunk_overlap self = chunk_size self)
     then Raises (Builtin ValueError)
     else Returns {| ProcessedPDF.full_text := text;
                     ProcessedPDF.chunks := [];
                     ProcessedPDF.total_chunks := 0;
                     ProcessedPDF.total_words := len (split text) |}) ∧
  1 ≤ len (split text).
Proof.
  intros Hge Htext. unfold process_pdf. rewrite Htext. cbn.
  split.
  - unfold chunk_text. case_decide as Heq.
    + by rewrite Heq, Z.sub_diag.
    + by rewrite range_backward by (unfold len; lia).
  - pose proof (extract_text_words _ _ _ Htext) as Hword.
    unfold len. destruct (split text); [done|simpl; lia].
Qed.

End ProcessPdf.

(** * Properties of the background task *)

Section BackgroundFacts.
Context {emb : Embeddings} {pkl : Pickle} {llm : LLM} {cfg : Settings}
        {pdf : PdfReaders}.
Variable pdf_processor : PDFProcessor.

(** X16: [process_file_async] changes at most the row of the file it is
    given, and nothing at all for an unknown file id. In the row of a known
    file every column but [is_processed], [processing_status] and
    [updated_at] stays as it was; the status it leaves is "completed", with
    [is_processed] set, or "failed", with [is_processed] as it was; and
    either the row is as it was (the two columns had these values already,
    and nothing is written), or [updated_at] is the time of the database at
    the commit. *)
Theorem process_file_async_row (file_id : Z) (project_id : option Z)
    (now : Z) (db : database) (w : world) :
  let db' :=
    (process_file_async pdf_processor file_id project_id now db w).1 in
  let w' :=
    (process_file_async pdf_processor file_id project_id now db w).2 in
  projects db' = projects db ∧
  (∀ j, j ≠ file_id → files db' !! j = files db !! j) ∧
  match files db !! file_id with
  | None => db' = db ∧ w' = w
  | Some row =>
      ∃ row', files db' !! file_id = Some row' ∧
        FileModel.filename row' = FileModel.filename row ∧
        FileModel.original_filename row' = FileModel.original_filename row ∧
        FileModel.file_path row' = FileModel.file_path row ∧
        FileModel.file_size row' = FileModel.file_size row ∧
        FileModel.mime_type row' = FileModel.mime_type row ∧
        FileModel.owner_id row' = FileModel.owner_id row ∧
        FileModel.project_id row' = FileModel.project_id row ∧
        FileModel.created_at row' = FileModel.created_at row ∧
        (FileModel.processing_status row' = "completed" ∧
         FileModel.is_processed row' = true ∨
         FileModel.processing_status row' = "failed" ∧
         FileModel.is_processed row' = FileModel.is_processed row) ∧
        (row' = row ∨ FileModel.updated_at row' = Some now)
  end.
Proof.
  cbn zeta. unfold process_file_async.
  destruct (files db !! file_id) as [row|] eqn:Hrow; [|done].
  assert (∀ db' : database,
            db' = mark_completed now file_id row db ∨
            db' = mark_failed now file_id row db →
            projects db' = projects db ∧
            (∀ j, j ≠ file_id → files db' !! j = files db !! j) ∧
            ∃ row', files db' !! file_id = Some row' ∧
              FileModel.filename row' = FileModel.filename row ∧
              FileModel.original_filename row'
                = FileModel.original_filename row ∧
              FileModel.file_path row' = FileModel.file_path row ∧
              FileModel.file_size row' = FileModel.file_size row ∧
              FileModel.mime_type row' = FileModel.mime_type row ∧
              FileModel.owner_id row' = FileModel.owner_id row ∧
              FileModel.project_id row' = FileModel.project_id row ∧
              FileModel.created_at row' = FileModel.created_at row ∧
              (FileModel.processing_status row' = "completed" ∧
               FileModel.is_processed row' = true ∨
               FileModel.processing_status row' = "failed" ∧
               FileModel.is_processed row' = FileModel.is_processed row) ∧
              (row' = row ∨ FileModel.updated_at row' = Some now))
    as Hmark.
  { intros db' [-> | ->]; unfold mark_completed, mark_failed, commit;
      case_decide as Hsame; cbn [projects files];
      (split; [done|]);
      (split; [by intros j Hj; rewrite ?lookup_insert_ne|]).
    - exists row. split; [done|].
      repeat (split; [done|]). split; [|by left].
      left. by rewrite <- Hsame.
    - eexists. split; [apply lookup_insert_eq|]. cbn. tauto.
    - exists row. split; [done|].
      repeat (split; [done|]). split; [|by left].
      right. by rewrite <- Hsame.
    - eexists. split; [apply lookup_insert_eq|]. cbn. tauto. }
  destruct (process_pdf pdf_processor (fs w) (FileModel.file_path row))
    as [result|e]; [|apply Hmark; by right].
  destruct (given project_id) as [p|]; [|apply Hmark; by left].
  destruct (exec (add_documents_to_project (ProcessedPDF.chunks result)
                    file_id p) w) as [[merged|e] w'];
    apply Hmark; [by left|by right].
Qed.

Lemma mark_failed_status (now file_id : Z) (row : FileModel.t)
    (db : database) :
  files db !! file_id = Some row →
  FileModel.processing_status <$> files (mark_failed now file_id row db) !! file_id
    = Some "failed".
Proof.
  intros Hrow. unfold mark_failed, commit. case_decide as Hsame.
  - rewrite Hrow. cbn. by rewrite <- Hsame.
  - cbn. by rewrite lookup_insert_eq.
Qed.

Lemma mark_completed_status (now file_id : Z) (row : FileModel.t)
    (db : database) :
  files db !! file_id = Some row →
  FileModel.processing_status
    <$> files (mark_completed now file_id row db) !! file_id
    = Some "completed".
Proof.
  intros Hrow. unfold mark_completed, commit. case_decide as Hsame.
  - rewrite Hrow. cbn. by rewrite <- Hsame.
  - cbn. by rewrite lookup_insert_eq.
Qed.

(** X17: When no text can be extracted from the file, [process_file_async] marks
    the file "failed" and leaves the world of the pipeline as it was: no service
    is called and no index is written. *)
Theorem process_file_async_no_text (file_id : Z) (project_id : option Z)
    (now : Z) (db : database) (w : world) (row : FileModel.t) (e : exception) :
  files db !! file_id = Some row →
  extract_text (fs w) (FileModel.file_path row) = Raises e →
  ∃ db',
    process_file_async pdf_processor file_id project_id now db w = (db', w) ∧
    FileModel.processing_status <$> files db' !! file_id = Some "failed".
Proof.
  intros Hrow Htext. unfold process_file_async, process_pdf.
  rewrite Hrow, Htext. cbn. eexists. split; [done|].
  by apply mark_failed_status.
Qed.

(** X18: Without a project ([project_id] is [None], or 0, which the test [if
    project_id:] takes for none), [process_file_async] leaves the world of the
    pipeline as it was, and it marks the file "completed" exactly when
    [process_pdf] returns. *)
Theorem process_file_async_no_project (file_id : Z) (project_id : option Z)
    (now : Z) (db : database) (w : world) (row : FileModel.t) :
  files db !! file_id = Some row →
  project_id = None ∨ project_id = Some 0 →
  ∃ db',
    process_file_async pdf_processor file_id project_id now db w = (db', w) ∧
    FileModel.processing_status <$> files db' !! file_id =
      Some match process_pdf pdf_processor (fs w) (FileModel.file_path row) with
           | Returns _ => "completed"
           | Raises _ => "failed"
           end.
Proof.
  intros Hrow Hnone. unfold process_file_async. rewrite Hrow.
  assert (given project_id = None) as -> by (by destruct Hnone as [-> | ->]).
  destruct (process_pdf pdf_processor (fs w) (FileModel.file_path row));
    eexists; (split; [done|]);
    [by apply mark_completed_status|by apply mark_failed_status].
Qed.



(** X20: With an overlap that is not below the chunk size, [process_file_async]
    on a file with text: when the two are equal it marks the file "failed" and
    does nothing else; when the overlap is larger it marks the file "completed"
    without a project, although no chunk was made, and with a project it sends
    the embedding service no text at all, marks the file "failed" and writes
    nothing. *)
Theorem process_file_async_overlap_not_below_size (file_id : Z)
    (project_id : option Z) (now : Z) (db : database) (w : world)
    (row : FileModel.t) (text : str) :
  chunk_size pdf_processor ≤ chunk_overlap pdf_processor →
  files db !! file_id = Some row →
  extract_text (fs w) (FileModel.file_path row) = Returns text →
  process_file_async pdf_processor file_id project_id now db w =
    if decide (chunk_overlap pdf_processor = chunk_size pdf_processor)
    then (mark_failed now file_id row db, w)
    else match given project_id with
         | Some _ =>
             (mark_failed now file_id row db, log (CallEmbedDocuments []) w)
         | None => (mark_completed now file_id row db, w)
         end.
Proof.
  intros Hge Hrow Htext. unfold process_file_async, process_pdf.
  rewrite Hrow, Htext. unfold mbind, outcome_bind, chunk_text.
  case_decide as Heq.
  - by rewrite Heq, Z.sub_diag.
  - rewrite range_backward by (unfold len; lia). cbn.
    unfold given. by destruct project_id as [[| |]|].
Qed.

Lemma load_vectorstore_file (project_id : Z) (w1 w2 : world) :
  fs w1 !! index_path project_id = fs w2 !! index_path project_id →
  (exec (load_vectorstore project_id) w1).1
    = (exec (load_vectorstore project_id) w2).1.
Proof.
  intros Hsame. destruct (fs w2 !! index_path project_id) as [data|] eqn:Hdata.
  - by rewrite !(exec_load_present _ _ data).
  - by rewrite !exec_load_absent.
Qed.

(** X21: [delete_file] on a file of the user removes the row of the file and the
    PDF, and nothing else: every other row and every other file is as it was, so
    no chunk of the file leaves an index. For a project whose index is not kept
    at the path of the PDF, [load_vectorstore] and [get_project_stats] give
    after the deletion what they gave before, the id of the deleted file
    included. *)
Theorem delete_file_keeps_index (file_id current_user project_id : Z)
    (db : database) (w : world) (row : FileModel.t) :
  files db !! file_id = Some row →
  FileModel.owner_id row = current_user →
  FileModel.file_path row ≠ index_path project_id →
  ∃ db' w',
    delete_file file_id current_user db w
      = (Returns (lit "File deleted successfully"), db', w') ∧
    files db' = delete file_id (files db) ∧ projects db' = projects db ∧
    fs w' = delete (FileModel.file_path row) (fs w) ∧
    calls w' = calls w ∧ qa_chain w' = qa_chain w ∧
    (exec (load_vectorstore project_id) w').1
      = (exec (load_vectorstore project_id) w).1 ∧
    (exec (get_project_stats project_id) w').1
      = (exec (get_project_stats project_id) w).1.
Proof.
  intros Hrow Howner Hpath. unfold delete_file.
  rewrite Hrow, decide_True by done. do 2 eexists. split; [done|].
  cbn [files projects].
  set (w' := if bool_decide (is_Some (fs w !! FileModel.file_path row))
             then set_fs (delete (FileModel.file_path row) (fs w)) w
             else w).
  assert (fs w' = delete (FileModel.file_path row) (fs w)) as Hfs.
  { unfold w'. case_bool_decide as Hthere; [done|].
    symmetry. apply delete_id. by apply eq_None_not_Some. }
  assert (fs w' !! index_path project_id = fs w !! index_path project_id)
    as Hindex by (by rewrite Hfs, lookup_delete_ne).
  pose proof (load_vectorstore_file project_id w' w Hindex) as Hload.
  split; [done|]. split; [done|]. split; [done|].
  split; [by unfold w'; case_bool_decide|].
  split; [by unfold w'; case_bool_decide|].
  split; [done|].
  unfold get_project_stats. rewrite !exec_bind.
  destruct (exec (load_vectorstore project_id) w') as [[existing'|e'] w1'],
           (exec (load_vectorstore project_id) w) as [[existing|e] w1];
    cbn [fst] in Hload; try done; injection Hload as ->; [|done].
  destruct existing as [index|]; [|done].
  by destruct (foldl stats_body (∅, 0) (docstore_values index)).
Qed.

End BackgroundFacts.

(** * Properties of the question endpoints *)

Section EndpointFacts.
Context {emb : Embeddings} {met : Metric} {pkl : Pickle} {llm : LLM}
        {cfg : Settings} {exs : ExceptionStr}.

Lemma exec_query_absent (question : str) (project_id : Z) (w : world) :
  fs w !! index_path project_id = None →
  exec (query question project_id) w =
    (Ok {| answer := no_documents_answer; sources := [] |}, w).
Proof.
  intros Habsent. unfold query. by rewrite exec_bind, exec_load_absent.
Qed.

Lemma exec_query_unreadable (question : str) (project_id : Z) (w : world)
    (data : bytes) (e : exn) :
  fs w !! index_path project_id = Some data →
  pickle_loads data = Raised e →
  exec (query question project_id) w = (Raised e, w).
Proof.
  intros Hdata Hload. unfold query.
  by rewrite exec_bind, (exec_load_present _ _ data), Hload.
Qed.

Lemma exec_get_project_stats_absent (project_id : Z) (w : world) :
  fs w !! index_path project_id = None →
  exec (get_project_stats project_id) w =
    (Ok {| total_documents := 0; total_chunks := 0; file_ids := [] |}, w).
Proof.
  intros Habsent. unfold get_project_stats.
  by rewrite exec_bind, exec_load_absent.
Qed.

Lemma exec_get_project_stats_unreadable (project_id : Z) (w : world)
    (data : bytes) (e : exn) :
  fs w !! index_path project_id = Some data →
  pickle_loads data = Raised e →
  exec (get_project_stats project_id) w = (Raised e, w).
Proof.
  intros Hdata Hload. unfold get_project_stats.
  by rewrite exec_bind, (exec_load_present _ _ data), Hload.
Qed.

Lemma owned_project_Some (db : database) (project_id user_id : Z)
    (project : Project.t) :
  projects db !! project_id = Some project →
  Project.owner_id project = user_id →
  owned_project db project_id user_id = Some project.
Proof.
  intros Hproject Howner. unfold owned_project.
  by rewrite Hproject, decide_True.
Qed.

(** X22: For a project of the user that has no index file, the four endpoints
    answer without calling any service and leave the world as it was: the
    question, the summary and the comparison are answered by the fixed "no
    documents" text with no source, and the statistics are all zero. *)
Theorem endpoints_no_index (question : str) (project_id current_user : Z)
    (db : database) (w : world) (project : Project.t) :
  projects db !! project_id = Some project →
  Project.owner_id project = current_user →
  fs w !! index_path project_id = None →
  let none := {| total_documents := 0; total_chunks := 0; file_ids := [] |} in
  let report := {| Report.text := no_documents_answer;
                   Report.sources := [];
                   Report.project_name := Project.name project |} in
  ask_question question project_id current_user db w =
    (Returns {| QuestionResponse.answer := no_documents_answer;
                QuestionResponse.sources := [];
                QuestionResponse.project_stats := none |}, w) ∧
  get_project_stats_endpoint project_id current_user db w = (Returns none, w) ∧
  summarize_project project_id current_user db w = (Returns report, w) ∧
  compare_papers project_id current_user db w = (Returns report, w).
Proof.
  intros Hproject Howner Habsent.
  unfold ask_question, get_project_stats_endpoint, summarize_project,
    compare_papers.
  rewrite (owned_project_Some _ _ _ project) by done.
  by rewrite !exec_query_absent, !exec_get_project_stats_absent.
Qed.

(** X23: For a project of the user whose index file cannot be unpickled, each of
    the four endpoints raises an [HTTPException] of status 500 whose detail ends
    with the message of what the unpickling raised, and leaves the world as it
    was. *)
Theorem endpoints_unreadable_index (question : str)
    (project_id current_user : Z) (db : database) (w : world)
    (project : Project.t) (data : bytes) (e : exn) :
  projects db !! project_id = Some project →
  Project.owner_id project = current_user →
  fs w !! index_path project_id = Some data →
  pickle_loads data = Raised e →
  let error prefix := HTTPException 500 (lit prefix ++ exception_str e) in
  ask_question question project_id current_user db w =
    (Raises (error "Error processing question: "), w) ∧
  get_project_stats_endpoint project_id current_user db w =
    (Raises (error "Error getting project stats: "), w) ∧
  summarize_project project_id current_user db w =
    (Raises (error "Error generating summary: "), w) ∧
  compare_papers project_id current_user db w =
    (Raises (error "Error generating comparison: "), w).
Proof.
  intros Hproject Howner Hdata Hload.
  unfold ask_question, get_project_stats_endpoint, summarize_project,
    compare_papers.
  rewrite (owned_project_Some _ _ _ project) by done.
  by rewrite !(exec_query_unreadable _ _ _ data e),
    !(exec_get_project_stats_unreadable _ _ data e).
Qed.


(** X25: [summarize_project] is [ask_question] on the summary question, less the
    statistics: from the same database and world the two return together, with
    the same answer and sources, or raise together, with the same status, and
    they leave the same world. In particular, the statistics of [ask_question]
    never fail once its query has returned. *)
Theorem summarize_project_as_question (project_id current_user : Z)
    (db : database) (w : world) :
  match ask_question summary_question project_id current_user db w,
        summarize_project project_id current_user db w with
  | (Returns r, w1), (Returns s, w2) =>
      w1 = w2 ∧ Report.text s = QuestionResponse.answer r ∧
      Report.sources s = QuestionResponse.sources r
  | (Raises (HTTPException status1 _), w1),
    (Raises (HTTPException status2 _), w2) => w1 = w2 ∧ status1 = status2
  | _, _ => False
  end.
Proof.
  unfold ask_question, summarize_project.
  destruct (owned_project db project_id current_user) as [project|]; [|done].
  destruct (fs w !! index_path project_id) as [data|] eqn:Hdata.
  - destruct (pickle_loads data) as [index|e] eqn:Hload.
    + rewrite (exec_query_present _ _ _ data index) by done.
      by rewrite (exec_get_project_stats_present _ _ data index).
    + by rewrite (exec_query_unreadable _ _ _ data e).
  - by rewrite exec_query_absent, exec_get_project_stats_absent.
Qed.

(** X26: Whatever the database and the world, each of the four endpoints returns
    or raises an [HTTPException] of status 500 when the project is the user's,
    and raises the [HTTPException] of status 404 with the detail "Project not
    found", leaving the world as it was, when the project does not exist or
    belongs to another user; nothing else is raised, and no file is ever
    changed. *)
Theorem endpoints_raise_http (question : str) (project_id current_user : Z)
    (db : database) (w : world) :
  let mine :=
    ∃ project, projects db !! project_id = Some project ∧
               Project.owner_id project = current_user in
  http_only mine w (ask_question question project_id current_user db w) ∧
  http_only mine w (get_project_stats_endpoint project_id current_user db w) ∧
  http_only mine w (summarize_project project_id current_user db w) ∧
  http_only mine w (compare_papers project_id current_user db w).
Proof.
  intros mine.
  assert (∀ q, fs (exec (query q project_id) w).2 = fs w) as Hquery
    by (intros q; apply read_only_exec, read_only_query).
  assert (∀ w', (exec (get_project_stats project_id) w').2 = w') as Hstats.
  { intros w'. unfold get_project_stats. rewrite exec_bind.
    destruct (fs w' !! index_path project_id) as [data|] eqn:Hdata.
    - rewrite (exec_load_present _ _ data) by done.
      destruct (pickle_loads data) as [index|e]; [|done].
      by destruct (foldl stats_body (∅, 0) (docstore_values index)).
    - by rewrite exec_load_absent. }
  unfold http_only, ask_question, get_project_stats_endpoint,
    summarize_project, compare_papers.
  destruct (owned_project db project_id current_user) as [project|] eqn:Howned.
  - assert mine as Hmine.
    { unfold owned_project in Howned.
      destruct (projects db !! project_id) as [project'|] eqn:Hproject; [|done].
      case_decide as Howner; [|done]. by exists project'. }
    split; [|split; [|split]].
    + specialize (Hquery question).
      destruct (exec (query question project_id) w) as [[a|e] w1];
        cbn [snd] in Hquery; [|split; [done|right; split; [done|by eexists]]].
      specialize (Hstats w1).
      destruct (exec (get_project_stats project_id) w1) as [[stats|e] w2];
        cbn [snd] in Hstats; subst w2; cbn [fst snd];
        [done|split; [done|right; split; [done|by eexists]]].
    + specialize (Hstats w).
      destruct (exec (get_project_stats project_id) w) as [[stats|e] w2];
        cbn [snd] in Hstats; subst w2; cbn [fst snd];
        [done|split; [done|right; split; [done|by eexists]]].
    + specialize (Hquery summary_question).
      destruct (exec (query summary_question project_id) w) as [[a|e] w1];
        cbn [snd] in Hquery; [done|split; [done|right; split; [done|by eexists]]].
    + specialize (Hquery comparison_question).
      destruct (exec (query comparison_question project_id) w) as [[a|e] w1];
        cbn [snd] in Hquery; [done|split; [done|right; split; [done|by eexists]]].
  - assert (¬ mine) as Hother.
    { intros (project & Hproject & Howner). unfold owned_project in Howned.
      by rewrite Hproject, decide_True in Howned. }
    repeat split; by left.
Qed.

End EndpointFacts.

(** * Properties of the API key manager *)

Section ApiKey.

Lemma prompt_for_api_key_S (self : APIKeyManager) (depth : nat) (line : str)
    (console : list str) :
  _prompt_for_api_key self (S depth) (line :: console) =
  if decide (strip line = lit "1") then
    match console with
    | [] => (Raises EOFError, self, [])
    | api_key :: console =>
        if truthy (strip api_key)
        then (Returns (strip api_key),
              {| _api_key := Some (strip api_key) |}, console)
        else _prompt_for_api_key self depth console
    end
  else if decide (strip line = lit "2") then (Raises (SystemExit 1), self, console)
  else if decide (strip line = lit "3") then (Raises (SystemExit 1), self, console)
  else _prompt_for_api_key self depth console.
Proof. done. Qed.

Lemma lstrip_head (s : str) (c : N) :
  head (lstrip s) = Some c → isspace c = false.
Proof.
  induction s as [|a s IH]; simpl; [done|].
  destruct (isspace a) eqn:Ha; [done|]. simpl. by intros [= <-].
Qed.

Lemma lstrip_fixed (s : str) :
  (∀ c, head s = Some c → isspace c = false) → lstrip s = s.
Proof.
  destruct s as [|a s]; simpl; [done|]. intros Hhead.
  by rewrite (Hhead a eq_refl).
Qed.

Lemma lstrip_suffix (s : str) : ∃ spaces, s = spaces ++ lstrip s.
Proof.
  induction s as [|a s [spaces IH]]; simpl; [by exists []|].
  destruct (isspace a); [|by exists []].
  exists (a :: spaces). simpl. by f_equal.
Qed.

Lemma lstrip_last (s : str) (c : N) :
  last (lstrip s) = Some c → last s = Some c.
Proof.
  destruct (lstrip_suffix s) as [spaces Hs]. intros Hlast.
  rewrite Hs, last_app. by rewrite Hlast.
Qed.

(** Stripping what is stripped changes nothing. *)
Lemma strip_strip (s : str) : strip (strip s) = strip s.
Proof.
  unfold strip.
  assert (∀ l : str, rev l = reverse l) as Hrev
    by (intros l; unfold reverse; by rewrite rev_alt).
  rewrite (lstrip_fixed (rev (lstrip (rev (lstrip s))))).
  - rewrite rev_involutive.
    rewrite (lstrip_fixed (lstrip (rev (lstrip s)))); [done|].
    apply lstrip_head.
  - intros c. rewrite Hrev, head_reverse. intros Hlast%lstrip_last.
    rewrite Hrev, last_reverse in Hlast. by apply lstrip_head in Hlast.
Qed.

(** X27: Whatever is typed and whatever room the stack has,
    [_prompt_for_api_key] returns only a key that is not empty and has no
    white space around it, the stripped line that was typed after a choice
    of "1", and it returns it once it is stored in the manager. It raises
    nothing but [SystemExit] with code 1, for a choice of "2" or "3",
    [EOFError] at the end of the input, and [RecursionError] when the calls
    it makes of itself, one after each wrong choice and each empty key, have
    used the room of the stack, each after reading at least a line; and
    then the manager is as it was. *)
Theorem prompt_for_api_key_outcome (self : APIKeyManager) (depth : nat)
    (console : list str) :
  match _prompt_for_api_key self depth console with
  | (Returns key, self', rest) =>
      _api_key self' = Some key ∧ key ≠ [] ∧ strip key = key ∧
      ∃ read choice api_key,
        console = read ++ choice :: api_key :: rest ∧
        strip choice = lit "1" ∧ strip api_key = key
  | (Raises e, self', rest) =>
      self' = self ∧
      (e = EOFError ∧ rest = [] ∨
       e = SystemExit 1 ∧
       (∃ read choice, console = read ++ choice :: rest ∧
                       (strip choice = lit "2" ∨ strip choice = lit "3")) ∨
       e = RecursionError ∧
       ∃ read, console = read ++ rest ∧ (depth ≤ length read)%nat)
  end.
Proof.
  revert console. induction depth as [|depth IH]; intros console.
  { split; [done|]. right; right. split; [done|]. by exists []. }
  destruct console as [|line console]; [split; [done|by left]|].
  rewrite prompt_for_api_key_S.
  assert (∀ used rest',
            line :: console = used ++ rest' → (1 ≤ length used)%nat →
            match _prompt_for_api_key self depth rest' with
            | (Returns key, self', rest) =>
                _api_key self' = Some key ∧ key ≠ [] ∧ strip key = key ∧
                ∃ read choice api_key,
                  line :: console = read ++ choice :: api_key :: rest ∧
                  strip choice = lit "1" ∧ strip api_key = key
            | (Raises e, self', rest) =>
                self' = self ∧
                (e = EOFError ∧ rest = [] ∨
                 e = SystemExit 1 ∧
                 (∃ read choice, line :: console = read ++ choice :: rest ∧
                                 (strip choice = lit "2" ∨ strip choice = lit "3")) ∨
                 e = RecursionError ∧
                 ∃ read, line :: console = read ++ rest ∧
                         (S depth ≤ length read)%nat)
            end) as Hagain.
  { intros used rest' Hused Hlen. specialize (IH rest').
    destruct (_prompt_for_api_key self depth rest') as [[[key|e] self'] rest].
    - destruct IH as (Hkey & Hne & Hstrip & read & choice & api_key & -> & H1 & H2).
      repeat split; try done.
      exists (used ++ read), choice, api_key.
      by rewrite Hused, <- app_assoc.
    - destruct IH as [-> [[-> ->] | [[-> (read & choice & -> & Hchoice)]
                                    | [-> (read & -> & Hdepth)]]]];
        (split; [done|]).
      + by left.
      + right; left. split; [done|].
        exists (used ++ read), choice. by rewrite Hused, <- app_assoc.
      + right; right. split; [done|]. exists (used ++ read).
        rewrite Hused, <- app_assoc, length_app. split; [done|lia]. }
  case_decide as H1.
  - destruct console as [|api_key console]; [split; [done|by left]|].
    destruct (truthy (strip api_key)) eqn:Hkey.
    + cbn [_api_key]. split; [done|].
      split; [by apply bool_decide_eq_true in Hkey|].
      split; [apply strip_strip|]. by exists [], line, api_key.
    + apply (Hagain [line; api_key]); [done|simpl; lia].
  - case_decide as H2;
      [split; [done|right; left; split; [done|exists [], line; by split; [|left]]]|].
    case_decide as H3;
      [split; [done|right; left; split; [done|exists [], line; by split; [|right]]]|].
    apply (Hagain [line]); [done|simpl; lia].
Qed.

Lemma prompt_for_api_key_stores (self : APIKeyManager) (depth : nat)
    (console : list str) :
  match _prompt_for_api_key self depth console with
  | (Returns key, self', rest) => _api_key self' = Some key ∧ key ≠ []
  | (Raises e, self', rest) =>
      self' = self ∧
      (e = EOFError ∨ e = SystemExit 1 ∨
       e = RecursionError ∧ (depth ≤ length console)%nat)
  end.
Proof.
  revert console. induction depth as [|depth IH]; intros console.
  { split; [done|]. right; right. split; [done|lia]. }
  destruct console as [|line console]; [split; [done|by left]|].
  rewrite prompt_for_api_key_S.
  assert (∀ rest',
            (length rest' < length (line :: console))%nat →
            match _prompt_for_api_key self depth rest' with
            | (Returns key, self', rest) => _api_key self' = Some key ∧ key ≠ []
            | (Raises e, self', rest) =>
                self' = self ∧
                (e = EOFError ∨ e = SystemExit 1 ∨
                 e = RecursionError ∧ (S depth ≤ length (line :: console))%nat)
            end) as Hagain.
  { intros rest' Hlen. specialize (IH rest').
    destruct (_prompt_for_api_key self depth rest') as [[[key|e] self'] rest];
      [done|].
    destruct IH as [-> [-> | [-> | [-> Hdepth]]]]; (split; [done|]);
      [by left|by right; left|right; right]. split; [done|lia]. }
  case_decide as H1.
  - destruct console as [|api_key console]; [split; [done|by left]|].
    destruct (truthy (strip api_key)) eqn:Hkey.
    + cbn [_api_key]. split; [done|]. by apply bool_decide_eq_true in Hkey.
    + apply Hagain. simpl. lia.
  - case_decide as H2; [split; [done|by right; left]|].
    case_decide as H3; [split; [done|by right; left]|].
    apply Hagain. simpl. lia.
Qed.

Lemma nonempty_Some (key : option str) (k : str) :
  nonempty key = Some k ↔ key = Some k ∧ k ≠ [].
Proof.
  unfold nonempty, truthy. destruct key as [k'|]; [|by split; [|intros []]].
  case_bool_decide as Hk; split.
  - by intros [= <-].
  - by intros [[= <-] _].
  - done.
  - intros [[= <-] Hne]. by destruct Hk.
Qed.

Lemma get_api_key_stores (self : APIKeyManager) (env : key_sources)
    (depth : nat) (console : list str) :
  match get_api_key self env depth console with
  | (Returns key, self', rest) => _api_key self' = Some key ∧ key ≠ []
  | (Raises e, self', rest) =>
      self' = self ∧
      (e = EOFError ∨ e = SystemExit 1 ∨
       e = RecursionError ∧ (depth ≤ length console)%nat)
  end.
Proof.
  unfold get_api_key.
  destruct (nonempty (_api_key self)) as [key|] eqn:Hself.
  { by apply nonempty_Some in Hself as [Hself Hne]. }
  destruct (nonempty (UPSTAGE_API_KEY env)) as [env_key|] eqn:Henv.
  { by apply nonempty_Some in Henv as [Henv Hne]. }
  destruct (truthy (upstage_api_key env)) eqn:Hsettings.
  { by apply bool_decide_eq_true in Hsettings. }
  apply prompt_for_api_key_stores.
Qed.

(** X28: [get_api_key] returns only a key that is not empty, and the manager
    holds that key when it returns; it reads the console only when the
    manager, the environment variable and the settings all have no key (or
    an empty one), and then it does what [_prompt_for_api_key] does. It
    raises nothing but [EOFError], [SystemExit] with code 1 and
    [RecursionError], the last only when at least as many lines were typed
    as the stack has room for calls of [_prompt_for_api_key]; and the
    manager is then as it was. *)
Theorem get_api_key_outcome (self : APIKeyManager) (env : key_sources)
    (depth : nat) (console : list str) :
  let no_key :=
    nonempty (_api_key self) = None ∧ nonempty (UPSTAGE_API_KEY env) = None ∧
    upstage_api_key env = [] in
  match get_api_key self env depth console with
  | (Returns key, self', rest) =>
      _api_key self' = Some key ∧ key ≠ [] ∧
      (rest = console ∧
       (_api_key self = Some key ∨ UPSTAGE_API_KEY env = Some key
        ∨ upstage_api_key env = key) ∨
       no_key ∧
       _prompt_for_api_key self depth console = (Returns key, self', rest))
  | (Raises e, self', rest) =>
      self' = self ∧
      (e = EOFError ∨ e = SystemExit 1 ∨
       e = RecursionError ∧ (depth ≤ length console)%nat) ∧
      no_key
  end.
Proof.
  cbn zeta. unfold get_api_key.
  destruct (nonempty (_api_key self)) as [key|] eqn:Hself.
  { apply nonempty_Some in Hself as [Hself Hne].
    repeat split; try done. left. split; [done|by left]. }
  destruct (nonempty (UPSTAGE_API_KEY env)) as [env_key|] eqn:Henv.
  { apply nonempty_Some in Henv as [Henv Hne].
    repeat split; try done. left. split; [done|by right; left]. }
  destruct (truthy (upstage_api_key env)) eqn:Hsettings.
  { apply bool_decide_eq_true in Hsettings.
    repeat split; try done. left. split; [done|by right; right]. }
  assert (upstage_api_key env = []) as Hempty.
  { apply bool_decide_eq_false in Hsettings.
    by destruct (upstage_api_key env); [|destruct Hsettings]. }
  pose proof (prompt_for_api_key_stores self depth console) as Hprompt.
  destruct (_prompt_for_api_key self depth console) as [[[key|e] self'] rest].
  - destruct Hprompt as (Hkey & Hne). split; [done|]. split; [done|by right].
  - destruct Hprompt as [-> He]. done.
Qed.

(** X29: Once [get_api_key] has returned a key, every later call on the
    manager returns that same key, whatever the environment and the settings
    hold by then, without reading the console, and leaves the manager as it
    is. *)
Theorem get_api_key_cached (self self' : APIKeyManager) (env : key_sources)
    (depth : nat) (console rest : list str) (key : str) :
  get_api_key self env depth console = (Returns key, self', rest) →
  ∀ env' depth' console',
    get_api_key self' env' depth' console' = (Returns key, self', console').
Proof.
  intros Hget env' depth' console'.
  pose proof (get_api_key_stores self env depth console) as Hstores.
  rewrite Hget in Hstores. destruct Hstores as (Hkey & Hne).
  unfold get_api_key.
  by rewrite (proj2 (nonempty_Some (_api_key self') key)).
Qed.

Lemma prompt_for_api_key_self (self1 self2 : APIKeyManager) (depth : nat)
    (console : list str) :
  match _prompt_for_api_key self1 depth console,
        _prompt_for_api_key self2 depth console with
  | (Returns key1, self1', rest1), (Returns key2, self2', rest2) =>
      key1 = key2 ∧ self1' = self2' ∧ rest1 = rest2
  | (Raises e1, self1', rest1), (Raises e2, self2', rest2) =>
      e1 = e2 ∧ self1' = self1 ∧ self2' = self2 ∧ rest1 = rest2
  | _, _ => False
  end.
Proof.
  revert console. induction depth as [|depth IH]; intros console; [done|].
  destruct console as [|line console]; [done|].
  rewrite !prompt_for_api_key_S.
  case_decide as H1.
  - destruct console as [|api_key console]; [done|].
    destruct (truthy (strip api_key)); [done|]. apply IH.
  - case_decide as H2; [done|]. case_decide as H3; [done|]. apply IH.
Qed.

(** X30: [set_api_key] with a key that is not empty makes [get_api_key]
    return that key, whatever the other sources hold; with the empty string
    it sets nothing that [get_api_key] would use: the next [get_api_key]
    does what it does after [clear_api_key]. *)
Theorem set_api_key_then_get (self : APIKeyManager) (api_key : str)
    (env : key_sources) (depth : nat) (console : list str) :
  let set := set_api_key self api_key in
  if truthy api_key
  then get_api_key set env depth console = (Returns api_key, set, console)
  else match get_api_key set env depth console,
             get_api_key (clear_api_key self) env depth console with
       | (Returns key1, self1, rest1), (Returns key2, self2, rest2) =>
           key1 = key2 ∧ self1 = self2 ∧ rest1 = rest2
       | (Raises e1, self1, rest1), (Raises e2, self2, rest2) =>
           e1 = e2 ∧ self1 = set ∧ self2 = clear_api_key self ∧ rest1 = rest2
       | _, _ => False
       end.
Proof.
  cbn zeta. unfold get_api_key, set_api_key, clear_api_key.
  cbn [_api_key nonempty].
  destruct (truthy api_key); [done|].
  destruct (nonempty (UPSTAGE_API_KEY env)); [done|].
  destruct (truthy (upstage_api_key env)); [done|].
  apply prompt_for_api_key_self.
Qed.

End ApiKey.

(** * The further theorems at work on the example instances *)

Section Examples.
Existing Instances example_embeddings example_metric example_pickle
  example_llm example_settings example_pdf_readers example_exception_str.

Lemma save_then_load_witness :
  exec (_ ← save_vectorstore other_index 1; load_vectorstore 1) example_world =
  (Ok (Some other_index),
   set_fs (<[index_path 1 := pickle_dumps other_index]> (fs example_world))
          example_world).
Proof.
  apply (save_then_load other_index 1 example_world).
  vm_compute. reflexivity.
Defined.

Lemma save_other_project_witness :
  fs (exec (save_vectorstore other_index 2) example_world).2 !! index_path 1
    = fs example_world !! index_path 1 ∧
  (exec (_ ← save_vectorstore other_index 2; load_vectorstore 1)
        example_world).1
    = (exec (load_vectorstore 1) example_world).1.
Proof.
  apply (save_other_project other_index 2 1 example_world). lia.
Defined.

Lemma create_embeddings_entries_witness :
  ∃ new,
    exec (create_embeddings example_chunks 3) example_world =
      (Ok new,
       {| fs := fs example_world;
          calls := [CallEmbedDocuments [lit "a b c"; lit "c d e"; lit "e"]];
          qa_chain := None |}) ∧
    length (entries new) = 3%nat.
Proof.
  destruct (create_embeddings_entries example_chunks 3 example_world)
    as (new & Hrun & Hlen & _); [done|].
  exists new. split; [exact Hrun|exact Hlen].
Defined.

Lemma unreadable_index_witness :
  exec (query (lit "What is new?") 1) broken_world
    = (Raised UnpicklingError, broken_world) ∧
  exec (get_project_stats 1) broken_world
    = (Raised UnpicklingError, broken_world).
Proof.
  destruct (unreadable_index (lit "What is new?") example_chunks 3 1
              broken_world [] UnpicklingError) as (Hquery & Hstats & _).
  - vm_compute. reflexivity.
  - vm_compute. reflexivity.
  - split; [exact Hquery|exact Hstats].
Defined.




Lemma indexing_keeps_embedded_witness :
  ∃ merged w',
    exec (add_documents_to_project example_chunks 5 1) example_world
      = (Ok merged, w') ∧
    embedded merged ∧
    fs w' !! index_path 1 = Some (pickle_dumps merged).
Proof.
  destruct (indexing_keeps_embedded example_chunks 5 1 example_world
              (Some example_index))
    as (merged & w' & Hrun & Hembedded & Hfile & _).
  - done.
  - vm_compute. reflexivity.
  - intros index [= <-]. repeat constructor.
  - exists merged, w'. split; [exact Hrun|]. split; [exact Hembedded|exact Hfile].
Defined.


Lemma extract_text_pypdf2_first_witness :
  extract_text (fs upload_world) "uploads/0001.pdf"
    = Returns (lit "a b c d e" ++ [10%N]) ∧
  split (lit "a b c d e" ++ [10%N])
    = [lit "a"; lit "b"; lit "c"; lit "d"; lit "e"].
Proof.
  apply (extract_text_pypdf2_first (fs upload_world) "uploads/0001.pdf"
           [lit "a b c d e"]).
  - vm_compute. reflexivity.
  - apply Exists_cons_hd. vm_compute. discriminate.
Defined.

Lemma process_pdf_chunks_witness :
  ∃ r,
    process_pdf (mkPDFProcessor 3 1) (fs upload_world) "uploads/0001.pdf"
      = Returns r ∧
    1 ≤ ProcessedPDF.total_chunks r ∧
    ProcessedPDF.total_chunks r = (ProcessedPDF.total_words r + (3 - 1) - 1) / (3 - 1).
Proof.
  pose proof (process_pdf_chunks (mkPDFProcessor 3 1) (fs upload_world)
                "uploads/0001.pdf") as Hchunks.
  destruct (process_pdf (mkPDFProcessor 3 1) (fs upload_world)
              "uploads/0001.pdf") as [r|e] eqn:Hrun.
  - exists r. split; [reflexivity|].
    destruct Hchunks as (_ & _ & _ & _ & _ & Hone & Hcount); [simpl; lia..|].
    split; [exact Hone|exact Hcount].
  - exfalso. vm_compute in Hrun. discriminate.
Defined.

Lemma process_pdf_overlap_not_below_size_witness :
  process_pdf (mkPDFProcessor 2 3) (fs upload_world) "uploads/0001.pdf" =
    Returns {| ProcessedPDF.full_text := lit "a b c d e" ++ [10%N];
               ProcessedPDF.chunks := [];
               ProcessedPDF.total_chunks := 0;
               ProcessedPDF.total_words := 5 |}.
Proof.
  destruct (process_pdf_overlap_not_below_size (mkPDFProcessor 2 3)
              (fs upload_world) "uploads/0001.pdf" (lit "a b c d e" ++ [10%N]))
    as [Hrun _].
  - simpl. lia.
  - vm_compute. reflexivity.
  - exact Hrun.
Defined.

Lemma process_file_async_no_text_witness :
  ∃ db',
    process_file_async (mkPDFProcessor 3 1) 8 (Some 1) 2000 example_database
                       upload_world = (db', upload_world) ∧
    FileModel.processing_status <$> files db' !! 8 = Some "failed".
Proof.
  apply (process_file_async_no_text (mkPDFProcessor 3 1) 8 (Some 1) 2000
           example_database upload_world missing_file
           (HTTPException 400 (lit "Failed to extract text from PDF"))).
  - vm_compute. reflexivity.
  - vm_compute. reflexivity.
Defined.

Lemma process_file_async_no_project_witness :
  ∃ db',
    process_file_async (mkPDFProcessor 3 1) 7 (Some 0) 2000 example_database
                       upload_world = (db', upload_world) ∧
    FileModel.processing_status <$> files db' !! 7 = Some "completed".
Proof.
  destruct (process_file_async_no_project (mkPDFProcessor 3 1) 7 (Some 0)
              2000 example_database upload_world example_file)
    as (db' & Hrun & Hstatus).
  - vm_compute. reflexivity.
  - right. reflexivity.
  - exists db'. split; [exact Hrun|exact Hstatus].
Defined.


Lemma process_file_async_overlap_not_below_size_witness :
  process_file_async (mkPDFProcessor 2 3) 7 (Some 1) 2000 example_database
                     upload_world
    = (mark_failed 2000 7 example_file example_database,
       log (CallEmbedDocuments []) upload_world) ∧
  process_file_async (mkPDFProcessor 2 3) 7 None 2000 example_database
                     upload_world
    = (mark_completed 2000 7 example_file example_database, upload_world).
Proof.
  split.
  - apply (process_file_async_overlap_not_below_size (mkPDFProcessor 2 3) 7
             (Some 1) 2000 example_database upload_world example_file
             (lit "a b c d e" ++ [10%N])).
    + simpl. lia.
    + vm_compute. reflexivity.
    + vm_compute. reflexivity.
  - apply (process_file_async_overlap_not_below_size (mkPDFProcessor 2 3) 7
             None 2000 example_database upload_world example_file
             (lit "a b c d e" ++ [10%N])).
    + simpl. lia.
    + vm_compute. reflexivity.
    + vm_compute. reflexivity.
Defined.

Lemma delete_file_keeps_index_witness :
  ∃ db' w',
    delete_file 7 10 example_database upload_world
      = (Returns (lit "File deleted successfully"), db', w') ∧
    files db' !! 7 = None ∧
    fs w' !! "uploads/0001.pdf" = None ∧
    (exec (get_project_stats 1) w').1
      = (exec (get_project_stats 1) upload_world).1.
Proof.
  destruct (delete_file_keeps_index 7 10 1 example_database upload_world
              example_file)
    as (db' & w' & Hrun & Hfiles & _ & Hfs & _ & _ & _ & Hstats).
  - vm_compute. reflexivity.
  - reflexivity.
  - vm_compute. discriminate.
  - exists db', w'. split; [exact Hrun|].
    split; [rewrite Hfiles; apply lookup_delete_eq|].
    split; [rewrite Hfs; apply lookup_delete_eq|exact Hstats].
Defined.

Lemma endpoints_no_index_witness :
  summarize_project 2 10 example_database example_world =
    (Returns {| Report.text := no_documents_answer;
                Report.sources := [];
                Report.project_name := lit "Survey" |}, example_world).
Proof.
  destruct (endpoints_no_index (lit "What is new?") 2 10 example_database
              example_world
              {| Project.name := lit "Survey"; Project.description := None;
                 Project.owner_id := 10 |})
    as (_ & _ & Hsummary & _).
  - vm_compute. reflexivity.
  - reflexivity.
  - vm_compute. reflexivity.
  - exact Hsummary.
Defined.

Lemma endpoints_unreadable_index_witness :
  get_project_stats_endpoint 1 10 example_database broken_world =
    (Raises (HTTPException 500 (lit "Error getting project stats: "
                                ++ lit "invalid load key")), broken_world).
Proof.
  destruct (endpoints_unreadable_index (lit "What is new?") 1 10
              example_database broken_world
              {| Project.name := lit "Thesis"; Project.description := None;
                 Project.owner_id := 10 |} [] UnpicklingError)
    as (_ & Hstats & _).
  - vm_compute. reflexivity.
  - reflexivity.
  - vm_compute. reflexivity.
  - vm_compute. reflexivity.
  - exact Hstats.
Defined.


(** Two wrong choices with room for two calls: the third call does not fit
    on the stack, and the choice of "2" is never read. *)
Example prompt_for_api_key_recursion_limit :
  _prompt_for_api_key {| _api_key := None |} 2 [lit "x"; lit "y"; lit "2"] =
  (Raises RecursionError, {| _api_key := None |}, [lit "2"]).
Proof. vm_compute. reflexivity. Qed.

Lemma get_api_key_cached_witness :
  get_api_key {| _api_key := Some (lit "typed") |}
              {| UPSTAGE_API_KEY := Some (lit "other"); upstage_api_key := [] |}
              0 [lit "2"] =
  (Returns (lit "typed"), {| _api_key := Some (lit "typed") |}, [lit "2"]).
Proof.
  apply (get_api_key_cached
           {| _api_key := None |} {| _api_key := Some (lit "typed") |}
           {| UPSTAGE_API_KEY := None; upstage_api_key := [] |} 3
           [lit " 1 "; lit "  "; lit "x"; lit "1"; lit " typed "; lit "3"]
           [lit "3"] (lit "typed")).
  vm_compute. reflexivity.
Defined.

End Examples.
